(** * a2dr: proximal operators of norms (a2dr/proximal/norm.py)

    A shallow embedding of the norm proximal operators of a2dr and of the
    NumPy / SciPy operations they are written with, followed by the
    properties of the operators.

    Conventions of the embedding.
    - Floating-point numbers are idealised as real numbers ([R]); rounding
      is not modelled.
    - An [np.ndarray] is its shape together with its entries in row-major
      order.  A [scipy.sparse] matrix is modelled by the same data under
      the tag [Sparse]: the model records which entries the matrix has and
      that the representation is sparse, not which zeros are stored.
    - A Python exception is the [Raise] case of [result]. *)

From Stdlib Require Import Reals Lra Lia List Arith Bool.
Import ListNotations.
Open Scope R_scope.

(** ** Exceptions and results *)

Inductive exn : Type :=
| NotImplementedError
| UnboundLocalError
| ValueError
| LinAlgError
| IndexError
| TypeError
| AttributeError.

Inductive result (A : Type) : Type :=
| Ok (a : A)
| Raise (e : exn).

Arguments Ok {A} a.
Arguments Raise {A} e.

Definition bind {A B : Type} (r : result A) (k : A -> result B) : result B :=
  match r with
  | Ok a => k a
  | Raise e => Raise e
  end.

Notation "x <- r ;; k" := (bind r (fun x => k))
  (at level 61, r at next level, right associativity).

Fixpoint mapM {A B : Type} (f : A -> result B) (l : list A) : result (list B) :=
  match l with
  | [] => Ok []
  | x :: xs => y <- f x ;; ys <- mapM f xs ;; Ok (y :: ys)
  end.

(** ** Containers *)

Record ndarray : Type := mk_array { shape : list nat; data : list R }.

Inductive container : Type :=
| Dense (a : ndarray)    (* np.ndarray *)
| Sparse (a : ndarray).  (* scipy.sparse matrix *)

Definition size (sh : list nat) : nat := fold_right Nat.mul 1%nat sh.

Definition ndim (a : ndarray) : nat := length (shape a).

Definition wf_array (a : ndarray) : Prop := length (data a) = size (shape a).

Definition issparse (c : container) : bool :=
  match c with
  | Dense _ => false
  | Sparse _ => true
  end.

Definition array_of (c : container) : ndarray :=
  match c with
  | Dense a => a
  | Sparse a => a
  end.

Definition c_shape (c : container) : list nat := shape (array_of c).
Definition c_data (c : container) : list R := data (array_of c).

(** A SciPy sparse matrix is always two-dimensional. *)
Definition wf (c : container) : Prop :=
  match c with
  | Dense a => wf_array a
  | Sparse a => wf_array a /\ ndim a = 2%nat
  end.

Definition map_array (f : R -> R) (a : ndarray) : ndarray :=
  mk_array (shape a) (map f (data a)).

Definition map_container (f : R -> R) (c : container) : container :=
  match c with
  | Dense a => Dense (map_array f a)
  | Sparse a => Sparse (map_array f a)
  end.

(** ** NumPy and SciPy operations used by the module *)

Definition shape_eqb (s1 s2 : list nat) : bool :=
  if list_eq_dec Nat.eq_dec s1 s2 then true else false.

Fixpoint zip_with (f : R -> R -> R) (l1 l2 : list R) : list R :=
  match l1, l2 with
  | x :: xs, y :: ys => f x y :: zip_with f xs ys
  | _, _ => []
  end.

(** [x - y] for a scalar [y].  SciPy refuses to subtract a non-zero scalar
    from a sparse matrix (the result would be dense) and returns a copy
    for zero. *)
Definition sub_scalar (x : container) (y : R) : result container :=
  match x with
  | Dense a => Ok (Dense (map_array (fun e => e - y) a))
  | Sparse a =>
      if Req_dec_T y 0 then Ok (Sparse a) else Raise NotImplementedError
  end.

(** [x + y] for a scalar [y]; the same restriction holds for sparse [x]. *)
Definition add_scalar (x : container) (y : R) : result container :=
  match x with
  | Dense a => Ok (Dense (map_array (fun e => e + y) a))
  | Sparse a =>
      if Req_dec_T y 0 then Ok (Sparse a) else Raise NotImplementedError
  end.

(** [-x], [y * x] and [x / y] for a scalar [y] keep the representation. *)
Definition neg (x : container) : container := map_container Ropp x.
Definition scalar_mul (y : R) (x : container) : container :=
  map_container (fun e => y * e) x.
Definition div_scalar (x : container) (y : R) : container :=
  map_container (fun e => e / y) x.

(** [np.maximum(x, y)] for an array [x] and a scalar [y].  The module
    applies it to arrays only. *)
Definition np_maximum (x : container) (y : R) : result container :=
  match x with
  | Dense a => Ok (Dense (map_array (fun e => Rmax e y) a))
  | Sparse _ => Raise TypeError
  end.

(** [x.maximum(y)], the method of sparse matrices; an array has no such
    attribute. *)
Definition method_maximum (x : container) (y : R) : result container :=
  match x with
  | Dense _ => Raise AttributeError
  | Sparse a => Ok (Sparse (map_array (fun e => Rmax e y) a))
  end.

(** NumPy broadcasting.  [pad_shape] prepends axes of length one,
    [broadcast_shapes] joins two padded shapes axis by axis (equal
    lengths, or one of them 1), and [broadcast_to] repeats the data of an
    array along the axes of length one. *)
Definition pad_shape (n : nat) (sh : list nat) : list nat :=
  repeat 1%nat (n - length sh) ++ sh.

Fixpoint broadcast_shapes (s1 s2 : list nat) : option (list nat) :=
  match s1, s2 with
  | [], [] => Some []
  | a :: s1', b :: s2' =>
      match broadcast_shapes s1' s2' with
      | Some sh =>
          if (a =? b)%nat then Some (a :: sh)
          else if (a =? 1)%nat then Some (b :: sh)
          else if (b =? 1)%nat then Some (a :: sh)
          else None
      | None => None
      end
  | _, _ => None
  end.

Definition slice (d : list R) (start len : nat) : list R :=
  firstn len (skipn start d).

Fixpoint broadcast_to (out inn : list nat) (d : list R) : list R :=
  match out, inn with
  | n :: out', m :: inn' =>
      flat_map (fun i =>
                  broadcast_to out' inn'
                    (slice d ((if (m =? 1)%nat then 0 else i) * size inn')
                           (size inn')))
               (seq 0 n)
  | _, _ => d
  end.

(** [x - y] for two containers.  Arrays of different shapes are broadcast
    against each other, or refused when their shapes do not fit; SciPy
    refuses a difference with a sparse matrix of another shape.  A sparse
    matrix minus a sparse matrix is sparse, a mixed difference is dense. *)
Definition sub (x y : container) : result container :=
  if shape_eqb (c_shape x) (c_shape y) then
    let r := mk_array (c_shape x) (zip_with Rminus (c_data x) (c_data y)) in
    Ok (if issparse x && issparse y then Sparse r else Dense r)
  else if issparse x || issparse y then Raise ValueError
  else
    let n := Nat.max (length (c_shape x)) (length (c_shape y)) in
    let sx := pad_shape n (c_shape x) in
    let sy := pad_shape n (c_shape y) in
    match broadcast_shapes sx sy with
    | Some sh =>
        Ok (Dense (mk_array sh
                     (zip_with Rminus (broadcast_to sh sx (c_data x))
                                      (broadcast_to sh sy (c_data y)))))
    | None => Raise ValueError
    end.

Definition sumsq (l : list R) : R := fold_right (fun e acc => e * e + acc) 0 l.

(** [np.linalg.norm(x, 'fro')] for a matrix, [np.linalg.norm(x, 2)] for a
    vector and [sparse.linalg.norm(x, 'fro')]: the square root of the sum
    of the squared entries.  The module passes ['fro'] with matrices and
    [2] with vectors only. *)
Inductive norm_ord : Type := Fro | Two.

Definition np_linalg_norm (x : container) (ord : norm_ord) : R :=
  sqrt (sumsq (c_data x)).

Definition sparse_linalg_norm (x : container) (ord : norm_ord) : R :=
  sqrt (sumsq (c_data x)).

(** [np.zeros(shape)] and [sparse.csr_matrix(shape)]. *)
Definition zeros_array (sh : list nat) : ndarray :=
  mk_array sh (repeat 0 (size sh)).
Definition np_zeros (sh : list nat) : container := Dense (zeros_array sh).
Definition sparse_csr_matrix (sh : list nat) : container :=
  Sparse (zeros_array sh).

(** ** The base operators of norm.py *)

(** [prox_norm1_base(v, t)] *)
Definition prox_norm1_base (v : container) (t : R) : result container :=
  let max_elemwise :=
    if issparse v then (fun x y => method_maximum x y) else np_maximum in
  a <- sub_scalar v t ;;
  p <- max_elemwise a 0 ;;
  b <- sub_scalar (neg v) t ;;
  q <- max_elemwise b 0 ;;
  sub p q.

(** A local variable is unbound until its first assignment; reading it
    unbound raises [UnboundLocalError]. *)
Definition read_local {A : Type} (x : option A) : result A :=
  match x with
  | Some a => Ok a
  | None => Raise UnboundLocalError
  end.

(** [prox_norm2_base(v, t)] *)
Definition prox_norm2_base (v : container) (t : R) : result container :=
  let norm := if issparse v then sparse_linalg_norm else np_linalg_norm in
  let zeros := if issparse v then sparse_csr_matrix else np_zeros in
  let v_norm :=
    if (length (c_shape v) =? 2)%nat then Some (norm v Fro)
    else if (length (c_shape v) =? 1)%nat then Some (norm v Two)
    else None in
  n <- read_local v_norm ;;
  if Req_dec_T n 0 then Ok (zeros (c_shape v))
  else Ok (scalar_mul (Rmax (1 - t * 1 / n) 0) v).

(** ** The composition transform and the public operators *)

(** The optional arguments [scale], [offset], [lin_term] and [quad_term]
    (the [a], [b], [c] and [d] of the docstrings). *)
Record params : Type := mk_params
  { scale : R; offset : R; lin_term : R; quad_term : R }.

(** "By default, t = 1, a = 1, b = 0, c = 0, and d = 0." *)
Definition default_params : params := mk_params 1 0 0 0.

(** Modelled from the spec: [prox_scale] of a2dr/proximal/composition.py is
    not among the sources.  Section 4.1 of the specification: reject
    [t <= 0], a zero [a] and [d < 0] before any computation; with
    [v' = (v - t c) / (1 + 2 d)] and [s = 1 / (1 + 2 d)] call the base
    operator at the point [a v' - b] with the step [t a^2 s]; map its
    result [y] back as [(y + b) / a] and rescale it by [s].  A failure of
    the base operator is propagated unchanged.  The parameters are the
    scalars of the docstrings. *)
Definition prox_scale (prox : container -> R -> result container)
    (p : params) (v : container) (t : R) : result container :=
  let a := scale p in
  let b := offset p in
  let c := lin_term p in
  let d := quad_term p in
  if Rle_dec t 0 then Raise ValueError
  else if Req_dec_T a 0 then Raise ValueError
  else if Rlt_dec d 0 then Raise ValueError
  else
    let s := 1 / (1 + 2 * d) in
    w <- sub_scalar v (t * c) ;;
    let v' := div_scalar w (1 + 2 * d) in
    x <- sub_scalar (scalar_mul a v') b ;;
    y <- prox x (t * (a * a) * s) ;;
    z <- add_scalar y b ;;
    Ok (scalar_mul s (div_scalar z a)).

(** [prox_norm1(v, t, **kwargs)] and [prox_norm2(v, t, **kwargs)] *)
Definition prox_norm1 (v : container) (t : R) (kwargs : params)
  : result container :=
  prox_scale prox_norm1_base kwargs v t.

Definition prox_norm2 (v : container) (t : R) (kwargs : params)
  : result container :=
  prox_scale prox_norm2_base kwargs v t.

(** ** Indexing, stacking and products *)

(** The entries [f i j] of an [m] by [n] matrix in row-major order. *)
Definition tabulate2 (m n : nat) (f : nat -> nat -> R) : list R :=
  flat_map (fun i => map (fun j => f i j) (seq 0 n)) (seq 0 m).

Definition rsum (f : nat -> R) (k : nat) : R :=
  fold_right (fun r acc => f r + acc) 0 (seq 0 k).

(** [shape[i]] of a shape tuple. *)
Definition shape_index (sh : list nat) (i : nat) : result nat :=
  match nth_error sh i with
  | Some n => Ok n
  | None => Raise IndexError
  end.

(** [B[:, j]] for a container with a second axis (the module reads
    [B.shape[1]] first).  On an array the second axis is dropped; a sparse
    matrix returns a sparse matrix with one column. *)
Definition getcol_data (a : ndarray) (j : nat) : list R :=
  match shape a with
  | d0 :: d1 :: rest =>
      flat_map (fun i => slice (data a) ((i * d1 + j) * size rest) (size rest))
               (seq 0 d0)
  | _ => data a
  end.

Definition getcol (B : container) (j : nat) : container :=
  match B with
  | Dense a =>
      Dense (mk_array (match shape a with
                       | d0 :: _ :: rest => d0 :: rest
                       | sh => sh
                       end) (getcol_data a j))
  | Sparse a =>
      Sparse (mk_array (match shape a with
                        | d0 :: _ => [d0; 1%nat]
                        | sh => sh
                        end) (getcol_data a j))
  end.

(** [np.atleast_2d] on a shape. *)
Definition atleast_2d (sh : list nat) : list nat :=
  match sh with
  | [] => [1%nat; 1%nat]
  | [n] => [1%nat; n]
  | _ => sh
  end.

(** [np.vstack(l)]: the arrays, made at least two-dimensional, are joined
    along the first axis; an empty list and arrays whose other axes differ
    are refused. *)
Definition np_vstack (l : list container) : result container :=
  match map (fun c => atleast_2d (c_shape c)) l with
  | [] => Raise ValueError
  | sh :: shs =>
      if forallb (fun sh' => shape_eqb (tl sh') (tl sh)) shs then
        Ok (Dense (mk_array
                     (fold_right (fun sh' acc => (hd 0%nat sh' + acc)%nat)
                                 0%nat (sh :: shs) :: tl sh)
                     (flat_map c_data l)))
      else Raise ValueError
  end.

(** [X.T] of a two-dimensional array; an array of fewer dimensions is
    its own transpose.  The stack the module transposes is always
    two-dimensional. *)
Definition transpose (X : container) : container :=
  match X with
  | Dense a =>
      match shape a with
      | [k; m] =>
          Dense (mk_array [m; k]
                   (tabulate2 m k (fun i j => nth (j * m + i) (data a) 0)))
      | _ => X
      end
  | Sparse _ => X
  end.

(** [sparse.hstack(l)]: sparse matrices with the same number of rows are
    joined side by side into a sparse matrix; differing row counts and an
    empty list are refused (for the empty list the exception SciPy raises
    depends on its version). *)
Definition sparse_hstack (l : list container) : result container :=
  match l with
  | [] => Raise ValueError
  | c :: cs =>
      let m := hd 0%nat (c_shape c) in
      if forallb (fun c' => (length (c_shape c') =? 2)%nat
                            && (hd 0%nat (c_shape c') =? m)%nat) l then
        Ok (Sparse (mk_array
                      [m; fold_right (fun c' acc => (nth 1 (c_shape c') 0 + acc)%nat)
                                     0%nat l]
                      (flat_map (fun i =>
                         flat_map (fun c' =>
                           slice (c_data c') (i * nth 1 (c_shape c') 0%nat)
                                 (nth 1 (c_shape c') 0%nat)) l)
                         (seq 0 m))))
      else Raise ValueError
  end.

(** [np.diag(s)]: the diagonal matrix of a vector, the diagonal of a
    matrix. *)
Definition np_diag (s : ndarray) : result ndarray :=
  match shape s with
  | [k] =>
      Ok (mk_array [k; k]
            (tabulate2 k k (fun i j => if (i =? j)%nat then nth i (data s) 0 else 0)))
  | [r; c] =>
      Ok (mk_array [Nat.min r c]
            (map (fun i => nth (i * c + i) (data s) 0) (seq 0 (Nat.min r c))))
  | _ => Raise ValueError
  end.

(** [a.dot(b)]: the sum product over the last axis of [a] and the
    second-to-last axis of [b] (the only axis of a vector [b]); a
    zero-dimensional operand multiplies as a scalar. *)
Definition np_dot (a b : ndarray) : result ndarray :=
  match rev (shape a), rev (shape b) with
  | [], _ => Ok (map_array (fun e => nth 0 (data a) 0 * e) b)
  | _, [] => Ok (map_array (fun e => e * nth 0 (data b) 0) a)
  | p :: ra, [p'] =>
      if (p =? p')%nat then
        Ok (mk_array (rev ra)
              (map (fun i => rsum (fun r => nth (i * p + r) (data a) 0
                                            * nth r (data b) 0) p)
                   (seq 0 (size ra))))
      else Raise ValueError
  | p :: ra, q :: p' :: rb =>
      if (p =? p')%nat then
        Ok (mk_array (rev ra ++ rev rb ++ [q])
              (flat_map (fun i =>
                 tabulate2 (size rb) q (fun j l =>
                   rsum (fun r => nth (i * p + r) (data a) 0
                                  * nth ((j * p + r) * q + l) (data b) 0) p))
                 (seq 0 (size ra))))
      else Raise ValueError
  end.

(** ** Operators that rely on collaborators outside norm.py *)

Section Collaborators.

(** [proj_l1] of a2dr/proximal/projection.py, the projection onto the unit
    ball of the 1-norm, is not among the sources; it is a parameter of the
    model and the properties below state what they require of it. *)
Variable proj_l1 : container -> result container.

(** The factorisation [np.linalg.svd(B, full_matrices=False)] computes for
    an array of at least two dimensions: the triple [(U, s, Vt)]. *)
Variable svd : ndarray -> ndarray * ndarray * ndarray.

(** [np.linalg.svd] takes arrays of at least two dimensions; a sparse
    matrix is not converted to one and is refused like a scalar. *)
Definition np_linalg_svd (B : container)
  : result (ndarray * ndarray * ndarray) :=
  match B with
  | Dense a => if (ndim a <? 2)%nat then Raise LinAlgError else Ok (svd a)
  | Sparse _ => Raise LinAlgError
  end.

(** [prox_norm_inf_base(v, t)] *)
Definition prox_norm_inf_base (v : container) (t : R) : result container :=
  p <- proj_l1 (div_scalar v t) ;;
  sub v (scalar_mul t p).

(** [prox_norm_nuc_base(B, t)] *)
Definition prox_norm_nuc_base (B : container) (t : R) : result container :=
  usv <- np_linalg_svd B ;;
  let '(U, s, Vt) := usv in
  s_new <- np_maximum (Dense (map_array (fun e => e - t) s)) 0 ;;
  D <- np_diag (array_of s_new) ;;
  UD <- np_dot U D ;;
  r <- np_dot UD Vt ;;
  Ok (Dense r).

(** [prox_group_lasso_base(B, t)] *)
Definition prox_group_lasso_base (B : container) (t : R) : result container :=
  if issparse B then
    n <- shape_index (c_shape B) 1 ;;
    cols <- mapM (fun j => prox_norm2 (getcol B j) t default_params) (seq 0 n) ;;
    sparse_hstack cols
  else
    n <- shape_index (c_shape B) 1 ;;
    cols <- mapM (fun j => prox_norm2 (getcol B j) t default_params) (seq 0 n) ;;
    stacked <- np_vstack cols ;;
    Ok (transpose stacked).

(** [prox_norm_inf], [prox_norm_nuc] and [prox_group_lasso] *)
Definition prox_norm_inf (v : container) (t : R) (kwargs : params)
  : result container :=
  prox_scale prox_norm_inf_base kwargs v t.

Definition prox_norm_nuc (B : container) (t : R) (kwargs : params)
  : result container :=
  prox_scale prox_norm_nuc_base kwargs B t.

Definition prox_group_lasso (B : container) (t : R) (kwargs : params)
  : result container :=
  prox_scale prox_group_lasso_base kwargs B t.

End Collaborators.

(** ** Vocabulary of the properties *)

(** [np.sign] on a real number. *)
Definition sign (x : R) : R :=
  if Rlt_dec 0 x then 1 else if Rlt_dec x 0 then -1 else 0.

(** Soft-thresholding of one coordinate. *)
Definition soft_threshold (t x : R) : R := sign x * Rmax (Rabs x - t) 0.

(** The norm the L2 operator is defined with: Euclidean for a vector,
    Frobenius for a matrix, undefined for other numbers of dimensions. *)
Definition norm_of (v : container) : option R :=
  match length (c_shape v) with
  | 1%nat | 2%nat => Some (sqrt (sumsq (c_data v)))
  | _ => None
  end.

(** The zero container with the shape and the representation of [v]. *)
Definition zero_like (v : container) : container :=
  match v with
  | Dense a => Dense (zeros_array (shape a))
  | Sparse a => Sparse (zeros_array (shape a))
  end.

(** The 1-norm, the infinity norm, the inner product and the squared
    Euclidean distance of coordinate lists. *)
Definition norm1 (l : list R) : R := fold_right (fun e acc => Rabs e + acc) 0 l.
Definition norm_inf (l : list R) : R :=
  fold_right (fun e acc => Rmax (Rabs e) acc) 0 l.
Definition inner (x y : list R) : R :=
  fold_right Rplus 0 (zip_with Rmult x y).
Definition dist2 (x y : list R) : R := sumsq (zip_with Rminus x y).

(** [p] is the Euclidean projection of [z] onto the unit ball of the
    1-norm: a point of the ball at least as close to [z] as any other. *)
Definition is_proj_l1_ball (z p : list R) : Prop :=
  length p = length z /\ norm1 p <= 1 /\
  forall y, length y = length z -> norm1 y <= 1 -> dist2 z p <= dist2 z y.

(** [r] is the proximal point of [t * norm_inf] at [v]: a minimiser of
    [t * norm_inf x + 1/2 * dist2 x v]. *)
Definition is_prox_norm_inf (t : R) (v r : list R) : Prop :=
  length r = length v /\
  forall x, length x = length v ->
    t * norm_inf r + / 2 * dist2 r v <= t * norm_inf x + / 2 * dist2 x v.

(** Entry [(i, j)] of a matrix and entry [i] of a vector. *)
Definition entry (a : ndarray) (i j : nat) : R :=
  nth (i * nth 1 (shape a) 0%nat + j) (data a) 0.
Definition coord (a : ndarray) (i : nat) : R := nth i (data a) 0.

Definition delta (p q : nat) : R := if (p =? q)%nat then 1 else 0.

(** [(U, s, Vt)] is a reduced singular value decomposition of the [m] by
    [n] matrix [B]: [U] has orthonormal columns, [Vt] orthonormal rows,
    the singular values [s] are non-negative and in descending order, and
    [B = U diag(s) Vt]. *)
Definition is_thin_svd (B U s Vt : ndarray) : Prop :=
  exists m n : nat,
    let k := Nat.min m n in
    shape B = [m; n] /\ shape U = [m; k] /\ shape s = [k] /\
    shape Vt = [k; n] /\
    wf_array B /\ wf_array U /\ wf_array s /\ wf_array Vt /\
    (forall p q, (p < k)%nat -> (q < k)%nat ->
       rsum (fun i => entry U i p * entry U i q) m = delta p q) /\
    (forall p q, (p < k)%nat -> (q < k)%nat ->
       rsum (fun j => entry Vt p j * entry Vt q j) n = delta p q) /\
    (forall l, (l < k)%nat -> 0 <= coord s l) /\
    (forall l l', (l <= l')%nat -> (l' < k)%nat -> coord s l' <= coord s l) /\
    (forall i j, (i < m)%nat -> (j < n)%nat ->
       entry B i j = rsum (fun l => entry U i l * coord s l * entry Vt l j) k).

(** The largest absolute value among the first [n] coordinates of a
    vector given by its coordinate function. *)
Definition ninf (f : nat -> R) (n : nat) : R :=
  fold_right (fun i acc => Rmax (Rabs (f i)) acc) 0 (seq 0 n).

(** The Euclidean norm of a coordinate list. *)
Definition norm2 (l : list R) : R := sqrt (sumsq l).

(** [r] is the proximal point of [t * norm1], respectively of
    [t * norm2], at [v]. *)
Definition is_prox_norm1 (t : R) (v r : list R) : Prop :=
  length r = length v /\
  forall x, length x = length v ->
    t * norm1 r + / 2 * dist2 r v <= t * norm1 x + / 2 * dist2 x v.

Definition is_prox_norm2 (t : R) (v r : list R) : Prop :=
  length r = length v /\
  forall x, length x = length v ->
    t * norm2 r + / 2 * dist2 r v <= t * norm2 x + / 2 * dist2 x v.

(** The two-sided shrinkage of one coordinate as [prox_norm1_base]
    writes it. *)
Definition shrink1 (t e : R) : R := Rmax (e - t) 0 - Rmax (- e - t) 0.

(** What the operators require of the projection routine (section 6 of
    the specification): for every real array it returns, in the shape of
    its argument, the Euclidean projection of the entries onto the unit
    ball of the 1-norm. *)
Definition proj_l1_contract (proj_l1 : container -> result container) : Prop :=
  forall z : ndarray,
    exists p, proj_l1 (Dense z) = Ok (Dense p) /\ shape p = shape z /\
              is_proj_l1_ball (data z) (data p).

(** Modelled from the spec: [proj_l1] of a2dr/proximal/projection.py is not
    among the sources.  Section 4.4 of the specification describes it as
    the sorted-threshold algorithm: sort the absolute values in
    descending order, find the largest index where the
    cumulative-mean-adjusted threshold is positive, clip.  The
    definitions up to [proj_l1_model] follow these words;
    [insert_desc] and [sort_desc] are the sort. *)
Fixpoint insert_desc (x : R) (l : list R) : list R :=
  match l with
  | [] => [x]
  | y :: l' => if Rle_dec y x then x :: l else y :: insert_desc x l'
  end.

Definition sort_desc (l : list R) : list R := fold_right insert_desc [] l.

(** Modelled from the spec: the cumulative sum [c_j] of the first [j]
    sorted values and the threshold [(c_j - 1) / j] it gives. *)
Definition prefix_sum (u : list R) (j : nat) : R :=
  fold_right Rplus 0 (firstn j u).

Definition threshold_at (u : list R) (j : nat) : R :=
  (prefix_sum u j - 1) / INR j.

(** Modelled from the spec: the largest index [j] (counted from 1) at
    which the sorted value minus its threshold is positive, 0 if there is
    none. *)
Definition last_active (u : list R) : nat :=
  fold_left (fun best j =>
               if Rlt_dec (threshold_at u j) (nth (j - 1) u 0)
               then j else best)
            (seq 1 (length u)) 0%nat.

Definition l1_threshold (z : list R) : R :=
  let u := sort_desc (map Rabs z) in threshold_at u (last_active u).

(** Modelled from the spec: the clip [sign(z_i) * max(|z_i| - theta, 0)]
    with the threshold found.  Section 6 requires the Euclidean
    projection for any real vector, so a point of the ball is returned as
    it is. *)
Definition proj_l1_list (z : list R) : list R :=
  if Rle_dec (norm1 z) 1 then z
  else map (fun e => sign e * Rmax (Rabs e - l1_threshold z) 0) z.

(** Modelled from the spec: the routine on containers.  The result is
    dense and has the shape of the argument; a sparse argument is
    converted to a dense one, one of the two policies section 4.4
    allows. *)
Definition proj_l1_model (c : container) : result container :=
  Ok (Dense (mk_array (c_shape c) (proj_l1_list (c_data c)))).

(** A list in descending order. *)
Fixpoint descending (l : list R) : Prop :=
  match l with
  | [] => True
  | x :: l' => (forall y, In y l' -> y <= x) /\ descending l'
  end.

(** The residual [v - t p] of a point [p], by coordinates. *)
Definition residual (t : R) (v p : nat -> R) (i : nat) : R := v i - t * p i.

(** The container of a result, [c] for a failure. *)
Definition value_or (r : result container) (c : container) : container :=
  match r with
  | Ok x => x
  | Raise _ => c
  end.

(** ** Elementary facts about the array operations *)

Lemma shape_eqb_refl (s : list nat) : shape_eqb s s = true.
Proof.
  unfold shape_eqb. destruct (list_eq_dec Nat.eq_dec s s); congruence.
Qed.

Lemma zip_with_map (f : R -> R -> R) (g h : R -> R) (l : list R) :
  zip_with f (map g l) (map h l) = map (fun e => f (g e) (h e)) l.
Proof.
  induction l as [|e l IH]; simpl; [reflexivity | now rewrite IH].
Qed.

Lemma map_id_ext (f : R -> R) (l : list R) :
  (forall e, f e = e) -> map f l = l.
Proof.
  intros Hf. induction l as [|e l IH]; simpl; [reflexivity|].
  now rewrite Hf, IH.
Qed.

Lemma map_array_id (f : R -> R) (a : ndarray) :
  (forall e, f e = e) -> map_array f a = a.
Proof.
  intros Hf. destruct a as [sh d]. unfold map_array; simpl.
  now rewrite map_id_ext.
Qed.

Lemma map_container_id (f : R -> R) (c : container) :
  (forall e, f e = e) -> map_container f c = c.
Proof.
  intros Hf. destruct c; simpl; now rewrite map_array_id.
Qed.

Lemma map_array_ext (f g : R -> R) (a : ndarray) :
  (forall e, f e = g e) -> map_array f a = map_array g a.
Proof.
  intros Hfg. unfold map_array. f_equal. apply map_ext, Hfg.
Qed.

Lemma soft_threshold_max (t x : R) :
  0 < t -> Rmax (x - t) 0 - Rmax (- x - t) 0 = soft_threshold t x.
Proof.
  intros Ht. unfold soft_threshold, sign, Rmax, Rabs.
  destruct (Rlt_dec 0 x), (Rlt_dec x 0), (Rcase_abs x),
    (Rle_dec (x - t) 0), (Rle_dec (- x - t) 0);
    try lra;
    match goal with
    | |- context [Rle_dec ?u 0] => destruct (Rle_dec u 0); lra
    end.
Qed.

Lemma sub_broadcast_example (a b c d x y : R) :
  sub (Dense (mk_array [2%nat; 2%nat] [a; b; c; d]))
      (Dense (mk_array [2%nat] [x; y]))
  = Ok (Dense (mk_array [2%nat; 2%nat] [a - x; b - y; c - x; d - y]))
  /\ sub (Dense (mk_array [2%nat; 1%nat] [a; b]))
         (Dense (mk_array [2%nat] [x; y]))
     = Ok (Dense (mk_array [2%nat; 2%nat] [a - x; a - y; b - x; b - y]))
  /\ sub (Dense (mk_array [3%nat] [a; b; c]))
         (Dense (mk_array [2%nat] [x; y]))
     = Raise ValueError.
Proof.
  repeat split.
Qed.

(** On an array the L1 operator is the two-sided shrinkage written in the
    source, for any step. *)
Lemma prox_norm1_base_dense (a : ndarray) (t : R) :
  prox_norm1_base (Dense a) t
  = Ok (Dense (map_array (fun e => Rmax (e - t) 0 - Rmax (- e - t) 0) a)).
Proof.
  unfold prox_norm1_base, sub; simpl.
  unfold c_shape, c_data; simpl. rewrite shape_eqb_refl.
  do 2 f_equal. unfold map_array; simpl. f_equal.
  rewrite !map_map. apply zip_with_map.
Qed.

(** On a sparse matrix the first subtraction of the step already fails. *)
Lemma prox_norm1_base_sparse (a : ndarray) (t : R) :
  t <> 0 -> prox_norm1_base (Sparse a) t = Raise NotImplementedError.
Proof.
  intros Ht. unfold prox_norm1_base; simpl.
  destruct (Req_dec_T t 0); [contradiction | reflexivity].
Qed.

(** With the default parameters the composition transform hands its
    arguments to the base operator and returns its result. *)
Lemma prox_scale_default (prox : container -> R -> result container)
    (v : container) (t : R) :
  0 < t -> prox_scale prox default_params v t = prox v t.
Proof.
  intros Ht. unfold prox_scale, default_params; simpl.
  destruct (Rle_dec t 0); [lra|].
  destruct (Req_dec_T 1 0); [lra|].
  destruct (Rlt_dec 0 0); [lra|].
  assert (Hw : sub_scalar v (t * 0) = Ok v).
  { destruct v; simpl.
    - rewrite map_array_id; [reflexivity | intros; lra].
    - destruct (Req_dec_T (t * 0) 0); [reflexivity | lra]. }
  rewrite Hw; simpl.
  assert (Hv : scalar_mul 1 (div_scalar v (1 + 2 * 0)) = v).
  { unfold scalar_mul, div_scalar.
    rewrite !map_container_id; [reflexivity | intros; field | intros; lra]. }
  rewrite Hv.
  assert (Hx : sub_scalar v 0 = Ok v).
  { destruct v; simpl.
    - rewrite map_array_id; [reflexivity | intros; lra].
    - destruct (Req_dec_T 0 0); [reflexivity | lra]. }
  rewrite Hx; simpl.
  replace (t * (1 * 1) * (1 / (1 + 2 * 0))) with t by field.
  destruct (prox v t) as [y|e]; simpl; [|reflexivity].
  assert (Hz : add_scalar y 0 = Ok y).
  { destruct y; simpl.
    - rewrite map_array_id; [reflexivity | intros; lra].
    - destruct (Req_dec_T 0 0); [reflexivity | lra]. }
  rewrite Hz; simpl. f_equal.
  unfold scalar_mul, div_scalar.
  rewrite !map_container_id; [reflexivity | intros; field | intros; field].
Qed.

(** A non-positive step is refused before the base operator is called. *)
Lemma prox_scale_rejects (prox : container -> R -> result container)
    (p : params) (v : container) (t : R) :
  t <= 0 -> prox_scale prox p v t = Raise ValueError.
Proof.
  intros Ht. unfold prox_scale.
  destruct (Rle_dec t 0); [reflexivity | contradiction].
Qed.

(** ** The L2 operator *)

Lemma sumsq_nonneg (l : list R) : 0 <= sumsq l.
Proof.
  induction l as [|e l IH]; simpl; [lra|]. nra.
Qed.

Lemma sumsq_scale (c : R) (l : list R) :
  sumsq (map (fun e => c * e) l) = c * c * sumsq l.
Proof.
  induction l as [|e l IH]; simpl; [ring|]. rewrite IH. ring.
Qed.

Lemma norm_scale (c : R) (l : list R) :
  sqrt (sumsq (map (fun e => c * e) l)) = Rabs c * sqrt (sumsq l).
Proof.
  rewrite sumsq_scale, sqrt_mult; [| nra | apply sumsq_nonneg].
  f_equal. apply (sqrt_Rsqr_abs c).
Qed.

Lemma map_zero (l : list R) : map (fun e => 0 * e) l = repeat 0 (length l).
Proof.
  induction l as [|e l IH]; simpl; [reflexivity|]. rewrite IH. f_equal. ring.
Qed.

Lemma scalar_mul_zero (v : container) :
  wf v -> scalar_mul 0 v = zero_like v.
Proof.
  destruct v as [a|a]; simpl; unfold map_array, zeros_array, wf_array.
  - intros H. now rewrite map_zero, H.
  - intros [H _]. now rewrite map_zero, H.
Qed.

Lemma norm_of_nonneg (v : container) (n : R) : norm_of v = Some n -> 0 <= n.
Proof.
  unfold norm_of. intros H.
  destruct (length (c_shape v)) as [|[|[|k]]]; inversion H; apply sqrt_pos.
Qed.

(** The two branches of [prox_norm2_base] once the norm is bound. *)
Lemma prox_norm2_base_eq (v : container) (t n : R) :
  norm_of v = Some n ->
  prox_norm2_base v t =
    if Req_dec_T n 0 then Ok (zero_like v)
    else Ok (scalar_mul (Rmax (1 - t * 1 / n) 0) v).
Proof.
  unfold norm_of, prox_norm2_base. intros H.
  destruct v as [a|a]; unfold c_shape, c_data in *; simpl in *;
    unfold np_linalg_norm, sparse_linalg_norm, c_data; simpl;
    destruct (length (shape a)) as [|[|[|k]]]; inversion H; subst; simpl;
    reflexivity.
Qed.

Lemma norm_of_scalar_mul (c : R) (v : container) (n : R) :
  norm_of v = Some n -> norm_of (scalar_mul c v) = Some (Rabs c * n).
Proof.
  unfold norm_of. destruct v as [a|a]; unfold c_shape, c_data; simpl;
    destruct (length (shape a)) as [|[|[|k]]]; intros H; inversion H;
    now rewrite norm_scale.
Qed.

Lemma sqrt_25 : sqrt (3 * 3 + (4 * 4 + 0)) = 5.
Proof.
  replace (3 * 3 + (4 * 4 + 0)) with (5 * 5) by ring.
  apply sqrt_square; lra.
Qed.

Lemma prox_norm2_base_example :
  prox_norm2_base (Dense (mk_array [2%nat] [3; 4])) 2
  = Ok (Dense (mk_array [2%nat] [1.8; 2.4])).
Proof.
  rewrite (prox_norm2_base_eq _ _ 5).
  - destruct (Req_dec_T 5 0); [lra|].
    simpl. unfold map_array; simpl.
    replace (Rmax (1 - 2 * 1 / 5) 0) with 0.6.
    + repeat f_equal; lra.
    + unfold Rmax. destruct (Rle_dec (1 - 2 * 1 / 5) 0); lra.
  - unfold norm_of; simpl. now rewrite sqrt_25.
Qed.

(** C2. For a vector or matrix [v] with norm [n] (Euclidean or Frobenius)
    and a step [t > 0]: if [n <= t] the L2 base operator returns the zero
    container of the shape of [v]; if [n > t] it returns [(1 - t/n) v], a
    positive multiple of [v] whose norm is [n - t]; and
    [prox_norm2([3, 4], t = 2)] is [[1.8, 2.4]]. *)
Theorem prox_norm2_base_shrinkage (v : container) (t n : R) :
  0 < t -> wf v -> norm_of v = Some n ->
  (n <= t -> prox_norm2_base v t = Ok (zero_like v)) /\
  (t < n ->
     prox_norm2_base v t = Ok (scalar_mul (1 - t / n) v) /\
     0 < 1 - t / n /\
     norm_of (scalar_mul (1 - t / n) v) = Some (n - t)) /\
  prox_norm2 (Dense (mk_array [2%nat] [3; 4])) 2 default_params
  = Ok (Dense (mk_array [2%nat] [1.8; 2.4])).
Proof.
  intros Ht Hwf Hn. pose proof (norm_of_nonneg _ _ Hn) as Hpos.
  rewrite (prox_norm2_base_eq _ _ _ Hn).
  split; [|split].
  - intros Hle. destruct (Req_dec_T n 0) as [|Hn0]; [reflexivity|].
    assert (Hc : 1 - t * 1 / n <= 0).
    { apply Rle_minus. rewrite Rmult_1_r.
      apply (Rmult_le_reg_r n); [lra|]. field_simplify; lra. }
    rewrite Rmax_right by exact Hc.
    now rewrite scalar_mul_zero.
  - intros Hlt. destruct (Req_dec_T n 0) as [|Hn0]; [lra|].
    assert (Hc : 0 < 1 - t / n).
    { apply Rlt_0_minus. apply (Rmult_lt_reg_r n); [lra|].
      field_simplify; lra. }
    replace (t * 1 / n) with (t / n) by (field; lra).
    rewrite Rmax_left by lra.
    repeat split; [exact Hc|].
    rewrite (norm_of_scalar_mul _ _ _ Hn), Rabs_pos_eq by lra.
    f_equal. field; lra.
  - unfold prox_norm2. rewrite prox_scale_default by lra.
    apply prox_norm2_base_example.
Qed.

Lemma prox_norm2_base_shrinkage_witness :
  0 < 2 /\
  prox_norm2_base (Dense (mk_array [2%nat] [3; 4])) 2
  = Ok (scalar_mul (1 - 2 / 5) (Dense (mk_array [2%nat] [3; 4]))).
Proof.
  split; [lra|].
  refine (proj1 (proj1 (proj2
    (prox_norm2_base_shrinkage (Dense (mk_array [2%nat] [3; 4])) 2 5 _ _ _)) _)).
  - lra.
  - reflexivity.
  - unfold norm_of; simpl. now rewrite sqrt_25.
  - lra.
Defined.

(** C8. If the norm of a vector or matrix [v] is exactly zero, the L2 base
    operator returns, for a step [t > 0], the zero container of the shape
    and the representation of [v]; it does not raise. *)
Theorem prox_norm2_base_zero_norm (v : container) (t : R) :
  0 < t -> norm_of v = Some 0 ->
  prox_norm2_base v t = Ok (zero_like v) /\
  c_shape (zero_like v) = c_shape v /\
  issparse (zero_like v) = issparse v /\
  (forall e, In e (c_data (zero_like v)) -> e = 0).
Proof.
  intros Ht Hn. rewrite (prox_norm2_base_eq _ _ _ Hn).
  destruct (Req_dec_T 0 0) as [_|Hne]; [|lra].
  repeat split; try (destruct v; reflexivity).
  intros e He. destruct v; unfold c_data in He; simpl in He;
    now apply repeat_spec in He.
Qed.

Lemma prox_norm2_base_zero_norm_witness :
  prox_norm2_base (Sparse (mk_array [1%nat; 2%nat] [0; 0])) 1
  = Ok (Sparse (mk_array [1%nat; 2%nat] [0; 0])).
Proof.
  refine (proj1 (prox_norm2_base_zero_norm
                   (Sparse (mk_array [1%nat; 2%nat] [0; 0])) 1 _ _)).
  - lra.
  - unfold norm_of; simpl.
    replace (0 * 0 + (0 * 0 + 0)) with 0 by ring. now rewrite sqrt_0.
Defined.

(** C10. For a container whose number of dimensions is neither 1 nor 2
    the L2 base operator reads the local [v_norm] before any assignment
    and raises [UnboundLocalError], whatever the step. *)
Theorem prox_norm2_base_unbound (v : container) (t : R) :
  0 < t ->
  length (c_shape v) <> 1%nat -> length (c_shape v) <> 2%nat ->
  prox_norm2_base v t = Raise UnboundLocalError.
Proof.
  intros _ H1 H2. unfold prox_norm2_base.
  destruct (Nat.eqb_spec (length (c_shape v)) 2); [contradiction|].
  destruct (Nat.eqb_spec (length (c_shape v)) 1); [contradiction|].
  reflexivity.
Qed.

Lemma prox_norm2_base_unbound_witness :
  prox_norm2_base (Dense (mk_array [] [7])) 1 = Raise UnboundLocalError
  /\ prox_norm2_base (Dense (mk_array [1%nat; 1%nat; 2%nat] [3; 4])) 1
     = Raise UnboundLocalError.
Proof.
  split; apply prox_norm2_base_unbound; simpl; first [lra | discriminate].
Defined.

(** ** The L1 operator *)

(** C1. For an array [v] and a step [t > 0] the L1 base operator is
    elementwise soft-thresholding, [sign(v_i) * max(|v_i| - t, 0)], and
    [prox_norm1([3, -1, 0.5], t = 1)] is [[2, 0, 0]]; for a sparse [v] the
    operator does not reach the thresholding: subtracting the step from
    the sparse matrix raises [NotImplementedError]. *)
Theorem prox_norm1_base_soft_threshold (a : ndarray) (t : R) :
  0 < t ->
  prox_norm1_base (Dense a) t = Ok (Dense (map_array (soft_threshold t) a)) /\
  prox_norm1 (Dense (mk_array [3%nat] [3; -1; 0.5])) 1 default_params
  = Ok (Dense (mk_array [3%nat] [2; 0; 0])) /\
  prox_norm1_base (Sparse a) t = Raise NotImplementedError.
Proof.
  intros Ht. split; [|split].
  - rewrite prox_norm1_base_dense. do 2 f_equal.
    apply map_array_ext. intros e. now apply soft_threshold_max.
  - unfold prox_norm1. rewrite prox_scale_default by lra.
    rewrite prox_norm1_base_dense. unfold map_array; simpl.
    repeat f_equal; unfold Rmax;
      repeat match goal with
             | |- context [Rle_dec ?u ?w] => destruct (Rle_dec u w)
             end; lra.
  - apply prox_norm1_base_sparse. lra.
Qed.

Lemma prox_norm1_base_soft_threshold_witness :
  0 < 1 /\
  prox_norm1_base (Dense (mk_array [3%nat] [3; -1; 0.5])) 1
  = Ok (Dense (map_array (soft_threshold 1) (mk_array [3%nat] [3; -1; 0.5]))).
Proof.
  split; [lra|].
  refine (proj1 (prox_norm1_base_soft_threshold
                   (mk_array [3%nat] [3; -1; 0.5]) 1 _)).
  lra.
Defined.

(** C9. For a sparse [v] and a step [t > 0] the L1 base operator does not
    return a sparse container: it raises [NotImplementedError] at [v - t],
    before the sparse elementwise maximum is applied. *)
Theorem prox_norm1_base_sparse_raises (a : ndarray) (t : R) :
  0 < t ->
  issparse (Sparse a) = true /\
  sub_scalar (Sparse a) t = Raise NotImplementedError /\
  prox_norm1_base (Sparse a) t = Raise NotImplementedError.
Proof.
  intros Ht. split; [reflexivity|]. split.
  - simpl. destruct (Req_dec_T t 0); [lra | reflexivity].
  - apply prox_norm1_base_sparse. lra.
Qed.

Lemma prox_norm1_base_sparse_raises_witness :
  prox_norm1_base (Sparse (mk_array [2%nat; 2%nat] [3; 0; 0; -1])) 1
  = Raise NotImplementedError.
Proof.
  refine (proj2 (proj2 (prox_norm1_base_sparse_raises
                          (mk_array [2%nat; 2%nat] [3; 0; 0; -1]) 1 _))).
  lra.
Defined.

(** ** The public operators *)

(** C6. With the default parameters [a = 1, b = 0, c = 0, d = 0] and a
    step [t > 0] each of the five public operators returns what its base
    operator returns on the same input, a result or a failure. *)
Theorem public_default_is_base
    (proj_l1 : container -> result container)
    (svd : ndarray -> ndarray * ndarray * ndarray)
    (v : container) (t : R) :
  0 < t ->
  prox_norm1 v t default_params = prox_norm1_base v t /\
  prox_norm2 v t default_params = prox_norm2_base v t /\
  prox_norm_inf proj_l1 v t default_params = prox_norm_inf_base proj_l1 v t /\
  prox_norm_nuc svd v t default_params = prox_norm_nuc_base svd v t /\
  prox_group_lasso v t default_params = prox_group_lasso_base v t.
Proof.
  intros Ht.
  unfold prox_norm1, prox_norm2, prox_norm_inf, prox_norm_nuc, prox_group_lasso.
  repeat split; now apply prox_scale_default.
Qed.

Lemma public_default_is_base_witness :
  prox_norm2 (Dense (mk_array [2%nat] [3; 4])) 2 default_params
  = prox_norm2_base (Dense (mk_array [2%nat] [3; 4])) 2.
Proof.
  refine (proj1 (proj2 (public_default_is_base
                          (fun c => Ok c) (fun a => (a, a, a))
                          (Dense (mk_array [2%nat] [3; 4])) 2 _))).
  lra.
Defined.

(** The base operators do not look at the sign of the step. *)
Lemma base_accepts_negative_step :
  -1 <= 0 /\
  prox_norm1_base (Dense (mk_array [1%nat] [3])) (-1)
  = Ok (Dense (mk_array [1%nat] [4])).
Proof.
  split; [lra|]. rewrite prox_norm1_base_dense. unfold map_array; simpl.
  repeat f_equal. unfold Rmax.
  repeat match goal with
         | |- context [Rle_dec ?u ?w] => destruct (Rle_dec u w)
         end; lra.
Qed.

(** C7, amended. For a step [t <= 0] each public operator fails with the
    validation error of the composition transform, whatever the
    parameters and without calling its base operator; the base operators
    themselves do not check the step: on an array the L1 base operator
    still returns [max(v - t, 0) - max(-v - t, 0)]. *)
Theorem nonpositive_step_rejected_by_public_only
    (proj_l1 : container -> result container)
    (svd : ndarray -> ndarray * ndarray * ndarray)
    (v : container) (t : R) (kwargs : params) (a : ndarray) :
  t <= 0 ->
  (forall prox, prox_scale prox kwargs v t = Raise ValueError) /\
  prox_norm1 v t kwargs = Raise ValueError /\
  prox_norm2 v t kwargs = Raise ValueError /\
  prox_norm_inf proj_l1 v t kwargs = Raise ValueError /\
  prox_norm_nuc svd v t kwargs = Raise ValueError /\
  prox_group_lasso v t kwargs = Raise ValueError /\
  prox_norm1_base (Dense a) t
  = Ok (Dense (map_array (fun e => Rmax (e - t) 0 - Rmax (- e - t) 0) a)).
Proof.
  intros Ht.
  unfold prox_norm1, prox_norm2, prox_norm_inf, prox_norm_nuc, prox_group_lasso.
  repeat split; try (intros; now apply prox_scale_rejects).
  apply prox_norm1_base_dense.
Qed.

Lemma nonpositive_step_rejected_by_public_only_witness :
  prox_norm1 (Dense (mk_array [1%nat] [3])) 0 default_params
  = Raise ValueError.
Proof.
  refine (proj1 (proj2 (nonpositive_step_rejected_by_public_only
                          (fun c => Ok c) (fun a => (a, a, a))
                          (Dense (mk_array [1%nat] [3])) 0 default_params
                          (mk_array [1%nat] [3]) _))).
  lra.
Defined.

(** ** Lists laid out as matrices *)

Lemma slice_one (l : list R) (k : nat) :
  (k < length l)%nat -> slice l k 1 = [nth k l 0].
Proof.
  unfold slice. revert k. induction l as [|e l IH]; intros k Hk; simpl in Hk.
  - lia.
  - destruct k as [|k]; simpl.
    + reflexivity.
    + apply IH. lia.
Qed.

Lemma flat_map_ext_in {A B : Type} (f g : A -> list B) (l : list A) :
  (forall x, In x l -> f x = g x) -> flat_map f l = flat_map g l.
Proof.
  induction l as [|x l IH]; intros H; simpl; [reflexivity|].
  rewrite H by now left. f_equal. apply IH. intros y Hy. apply H. now right.
Qed.

Lemma flat_map_singleton {A B : Type} (f : A -> B) (l : list A) :
  flat_map (fun x => [f x]) l = map f l.
Proof.
  induction l as [|x l IH]; simpl; [reflexivity | now rewrite IH].
Qed.

Lemma length_flat_map_const {A : Type} (g : A -> list R) (l : list A) (n : nat) :
  (forall x, In x l -> length (g x) = n) ->
  length (flat_map g l) = (length l * n)%nat.
Proof.
  induction l as [|x l IH]; intros H; simpl; [reflexivity|].
  rewrite length_app, H by now left.
  rewrite IH; [lia|]. intros y Hy. apply H. now right.
Qed.

Lemma nth_flat_map_const {A : Type} (g : A -> list R) (l : list A)
    (n i j : nat) (x0 : A) :
  (forall x, In x l -> length (g x) = n) ->
  (i < length l)%nat -> (j < n)%nat ->
  nth (i * n + j) (flat_map g l) 0 = nth j (g (nth i l x0)) 0.
Proof.
  revert i. induction l as [|x l IH]; intros i H Hi Hj; simpl in Hi; [lia|].
  simpl flat_map. destruct i as [|i].
  - simpl. rewrite app_nth1; [reflexivity|]. rewrite H by now left. exact Hj.
  - rewrite app_nth2; rewrite H by now left.
    + replace (S i * n + j - n)%nat with (i * n + j)%nat by lia.
      simpl nth. apply IH; [|lia|exact Hj].
      intros y Hy. apply H. now right.
    + simpl. lia.
Qed.

Lemma length_tabulate2 (m n : nat) (f : nat -> nat -> R) :
  length (tabulate2 m n f) = (m * n)%nat.
Proof.
  unfold tabulate2.
  rewrite (length_flat_map_const _ _ n), length_seq; [reflexivity|].
  intros. now rewrite length_map, length_seq.
Qed.

Lemma nth_tabulate2 (m n : nat) (f : nat -> nat -> R) (i j : nat) :
  (i < m)%nat -> (j < n)%nat -> nth (i * n + j) (tabulate2 m n f) 0 = f i j.
Proof.
  intros Hi Hj. unfold tabulate2.
  rewrite (nth_flat_map_const _ _ n i j 0%nat);
    [| intros; now rewrite length_map, length_seq
     | now rewrite length_seq | exact Hj].
  rewrite seq_nth by exact Hi. simpl.
  rewrite (nth_indep _ 0 (f i 0%nat)) by now rewrite length_map, length_seq.
  rewrite (map_nth (fun j => f i j)), seq_nth by exact Hj. reflexivity.
Qed.

Lemma map_nth_seq (l : list R) :
  map (fun i => nth i l 0) (seq 0 (length l)) = l.
Proof.
  induction l as [|e l IH]; simpl; [reflexivity|].
  f_equal. rewrite <- seq_shift, map_map. exact IH.
Qed.

(** Column [j] of an [m] by [n] matrix. *)
Lemma getcol_data_matrix (a : ndarray) (m n j : nat) :
  shape a = [m; n] -> wf_array a -> (j < n)%nat ->
  getcol_data a j = map (fun i => nth (i * n + j) (data a) 0) (seq 0 m).
Proof.
  intros Hs Hwf Hj. unfold getcol_data. rewrite Hs.
  unfold wf_array in Hwf. rewrite Hs in Hwf. simpl in Hwf.
  rewrite <- flat_map_singleton. apply flat_map_ext_in.
  intros i Hi. apply in_seq in Hi. simpl size.
  rewrite Nat.mul_1_r. apply slice_one. nia.
Qed.

Lemma getcol_data_tabulate2 (m n j : nat) (f : nat -> nat -> R) :
  (j < n)%nat ->
  getcol_data (mk_array [m; n] (tabulate2 m n f)) j
  = map (fun i => f i j) (seq 0 m).
Proof.
  intros Hj. rewrite (getcol_data_matrix _ m n j); simpl; auto.
  - apply map_ext_in. intros i Hi. apply in_seq in Hi.
    apply nth_tabulate2; lia.
  - unfold wf_array; simpl. rewrite length_tabulate2. lia.
Qed.

(** ** The group lasso operator *)

Lemma mapM_ok {A B : Type} (f : A -> result B) (g : A -> B) (l : list A) :
  (forall x, In x l -> f x = Ok (g x)) -> mapM f l = Ok (map g l).
Proof.
  induction l as [|x l IH]; intros H; simpl; [reflexivity|].
  rewrite H by now left. simpl. rewrite IH; [reflexivity|].
  intros y Hy. apply H. now right.
Qed.

Lemma map_nth_seq_list {A : Type} (g : A -> R) (l : list A) (x0 : A) :
  map (fun j => g (nth j l x0)) (seq 0 (length l)) = map g l.
Proof.
  induction l as [|x l IH]; simpl; [reflexivity|].
  f_equal. rewrite <- seq_shift, map_map. exact IH.
Qed.

(** The L2 base operator returns on every well-formed vector or matrix,
    and its result has the shape, the representation and the number of
    entries of its argument. *)
Lemma prox_norm2_base_ok (v : container) (t : R) :
  wf v -> (length (c_shape v) = 1 \/ length (c_shape v) = 2)%nat ->
  exists r, prox_norm2_base v t = Ok r /\ c_shape r = c_shape v /\
            issparse r = issparse v /\ length (c_data r) = length (c_data v).
Proof.
  intros Hwf Hd.
  assert (Hn : exists n, norm_of v = Some n).
  { unfold norm_of. destruct Hd as [-> | ->]; eauto. }
  destruct Hn as [n Hn]. rewrite (prox_norm2_base_eq _ _ _ Hn).
  destruct (Req_dec_T n 0).
  - exists (zero_like v). destruct v as [a|a]; simpl in *;
      unfold c_shape, c_data; simpl; rewrite repeat_length;
      unfold wf_array in Hwf; intuition.
  - eexists. split; [reflexivity|].
    destruct v as [a|a]; unfold c_shape, c_data; simpl;
      now rewrite length_map.
Qed.

Lemma vstack_rows (l : list container) (m : nat) :
  l <> [] -> (forall c, In c l -> c_shape c = [m]) ->
  np_vstack l = Ok (Dense (mk_array [length l; m] (flat_map c_data l))).
Proof.
  intros Hne Hsh. unfold np_vstack.
  assert (Hmap : map (fun c => atleast_2d (c_shape c)) l
                 = map (fun _ => [1%nat; m]) l).
  { apply map_ext_in. intros c Hc. now rewrite (Hsh c Hc). }
  rewrite Hmap. destruct l as [|c l]; [congruence|]. simpl.
  assert (Hall : forallb (fun sh' => shape_eqb (tl sh') [m])
                   (map (fun _ : container => [1%nat; m]) l) = true).
  { apply forallb_forall. intros sh' Hin. apply in_map_iff in Hin.
    destruct Hin as [_ [<- _]]. apply shape_eqb_refl. }
  rewrite Hall. do 4 f_equal.
  clear. induction l as [|c' l IH]; simpl; [reflexivity | now rewrite IH].
Qed.

Lemma hstack_columns (l : list container) (m : nat) (x0 : container) :
  l <> [] ->
  (forall c, In c l -> c_shape c = [m; 1%nat] /\ length (c_data c) = m) ->
  sparse_hstack l
  = Ok (Sparse (mk_array [m; length l]
          (tabulate2 m (length l) (fun i j => nth i (c_data (nth j l x0)) 0)))).
Proof.
  intros Hne Hsh. unfold sparse_hstack.
  destruct l as [|c l]; [congruence|].
  assert (Hm : hd 0%nat (c_shape c) = m).
  { destruct (Hsh c (or_introl eq_refl)) as [-> _]. reflexivity. }
  rewrite Hm.
  assert (Hall : forallb (fun c' => (length (c_shape c') =? 2)%nat
                                    && (hd 0%nat (c_shape c') =? m)%nat)
                   (c :: l) = true).
  { apply forallb_forall. intros c' Hin. destruct (Hsh c' Hin) as [-> _].
    simpl. now rewrite Nat.eqb_refl. }
  rewrite Hall. do 3 f_equal.
  - do 2 f_equal. generalize (c :: l) Hsh. clear. intros l Hsh.
    induction l as [|c' l IH]; simpl; [reflexivity|].
    destruct (Hsh c' (or_introl eq_refl)) as [-> _]. simpl.
    rewrite IH; [reflexivity|]. intros y Hy. apply Hsh. now right.
  - unfold tabulate2. apply flat_map_ext_in. intros i Hi. apply in_seq in Hi.
    rewrite (map_nth_seq_list (fun c' => nth i (c_data c') 0)).
    rewrite <- flat_map_singleton. apply flat_map_ext_in. intros c' Hc'.
    destruct (Hsh c' Hc') as [-> Hlen]. simpl nth.
    rewrite Nat.mul_1_r. apply slice_one. lia.
Qed.

(** The columns of a well-formed matrix and what the public L2 operator
    returns on them. *)
Lemma column_shrunk (B : container) (m n j : nat) (t : R) :
  0 < t -> wf B -> c_shape B = [m; n] -> (j < n)%nat ->
  let col := getcol B j in
  let r := value_or (prox_norm2_base col t) col in
  prox_norm2 col t default_params = Ok r /\
  prox_norm2_base col t = Ok r /\
  c_shape r = (if issparse B then [m; 1%nat] else [m]) /\
  issparse r = issparse B /\ length (c_data r) = m.
Proof.
  intros Ht Hwf Hs Hj col r.
  assert (Hcol : wf col /\ c_shape col = (if issparse B then [m; 1%nat] else [m])
                 /\ issparse col = issparse B /\ length (c_data col) = m).
  { subst col. destruct B as [a|a]; unfold c_shape, c_data in *; simpl in *.
    - rewrite (getcol_data_matrix a m n j Hs Hwf Hj), Hs.
      unfold wf_array; simpl. rewrite length_map, length_seq.
      repeat split; lia.
    - destruct Hwf as [Hwf Hnd].
      rewrite (getcol_data_matrix a m n j Hs Hwf Hj), Hs.
      unfold wf_array, ndim; simpl. rewrite length_map, length_seq.
      repeat split; lia. }
  destruct Hcol as (Hwc & Hsc & Hic & Hlc).
  destruct (prox_norm2_base_ok col t Hwc) as (r' & Hr & Hsr & Hir & Hlr).
  { rewrite Hsc. destruct (issparse B); simpl; auto. }
  assert (r = r') by (subst r; now rewrite Hr). subst r'.
  unfold prox_norm2. rewrite prox_scale_default by exact Ht.
  rewrite Hsr, Hir, Hlr. auto.
Qed.

(** A matrix without columns leaves [np.vstack] nothing to stack. *)
Lemma group_lasso_no_columns :
  wf (Dense (mk_array [2%nat; 0%nat] [])) /\
  prox_group_lasso_base (Dense (mk_array [2%nat; 0%nat] [])) 1
  = Raise ValueError.
Proof.
  split; reflexivity.
Qed.

(** C5, amended. For a matrix [B] (dense or sparse) with at least one
    column and a step [t > 0] the group lasso base operator returns a
    matrix of the shape and the representation of [B] whose column [j] is
    what the L2 base operator returns on column [j] of [B], for every
    [j]. *)
Theorem prox_group_lasso_base_columns (B : container) (m n : nat) (t : R) :
  0 < t -> wf B -> c_shape B = [m; n] -> (0 < n)%nat ->
  exists R,
    prox_group_lasso_base B t = Ok R /\
    issparse R = issparse B /\ c_shape R = [m; n] /\ wf R /\
    forall j, (j < n)%nat -> prox_norm2_base (getcol B j) t = Ok (getcol R j).
Proof.
  intros Ht Hwf Hs Hn.
  set (r := fun j => value_or (prox_norm2_base (getcol B j) t) (getcol B j)).
  assert (Hr : forall j, (j < n)%nat ->
             prox_norm2 (getcol B j) t default_params = Ok (r j) /\
             prox_norm2_base (getcol B j) t = Ok (r j) /\
             c_shape (r j) = (if issparse B then [m; 1%nat] else [m]) /\
             issparse (r j) = issparse B /\ length (c_data (r j)) = m).
  { intros j Hj. exact (column_shrunk B m n j t Ht Hwf Hs Hj). }
  assert (Hcols : mapM (fun j => prox_norm2 (getcol B j) t default_params)
                    (seq 0 n) = Ok (map r (seq 0 n))).
  { apply mapM_ok. intros j Hj. apply in_seq in Hj. apply Hr. lia. }
  assert (Hne : map r (seq 0 n) <> []).
  { destruct n; [lia | discriminate]. }
  assert (Hnth : forall j, (j < n)%nat -> nth j (map r (seq 0 n)) (r 0%nat) = r j).
  { intros j Hj. rewrite (map_nth r), seq_nth by exact Hj. reflexivity. }
  unfold prox_group_lasso_base. rewrite Hs. simpl shape_index.
  destruct (issparse B) eqn:HB; simpl bind; rewrite Hcols; simpl bind.
  - rewrite (hstack_columns _ m (r 0%nat) Hne).
    2:{ intros c Hc. apply in_map_iff in Hc. destruct Hc as (j & <- & Hj).
        apply in_seq in Hj. destruct (Hr j) as (_ & _ & H1 & _ & H2); [lia|].
        auto. }
    rewrite length_map, length_seq.
    eexists. split; [reflexivity|]. repeat split.
    + unfold wf, wf_array. cbn [data shape]. rewrite length_tabulate2.
      simpl. lia.
    + intros j Hj. destruct (Hr j Hj) as (_ & Hb & H1 & H2 & H3).
      rewrite Hb. f_equal. unfold getcol; cbn [shape data].
      rewrite getcol_data_tabulate2 by exact Hj.
      rewrite (map_ext_in _ (fun i => nth i (c_data (r j)) 0)).
      2:{ intros i _. now rewrite Hnth. }
      rewrite <- H3 at 2. rewrite map_nth_seq.
      destruct (r j) as [x|x]; [discriminate|].
      unfold c_shape, c_data in *; simpl in *. destruct x; simpl in *.
      now subst.
  - rewrite (vstack_rows _ m Hne).
    2:{ intros c Hc. apply in_map_iff in Hc. destruct Hc as (j & <- & Hj).
        apply in_seq in Hj. destruct (Hr j) as (_ & _ & H1 & _); [lia|].
        exact H1. }
    rewrite length_map, length_seq. unfold transpose. cbn [shape data].
    eexists. split; [reflexivity|]. repeat split.
    + unfold wf, wf_array. cbn [data shape]. rewrite length_tabulate2.
      simpl. lia.
    + intros j Hj. destruct (Hr j Hj) as (_ & Hb & H1 & H2 & H3).
      rewrite Hb. f_equal. unfold getcol; cbn [shape data].
      rewrite getcol_data_tabulate2 by exact Hj.
      rewrite (map_ext_in _ (fun i => nth i (c_data (r j)) 0)).
      2:{ intros i Hi. apply in_seq in Hi.
          rewrite (nth_flat_map_const c_data _ m j i (r 0%nat)).
          - now rewrite Hnth.
          - intros c Hc. apply in_map_iff in Hc. destruct Hc as (j' & <- & Hj').
            apply in_seq in Hj'. destruct (Hr j') as (_ & _ & _ & _ & H4); [lia|].
            exact H4.
          - now rewrite length_map, length_seq.
          - lia. }
      rewrite <- H3 at 2. rewrite map_nth_seq.
      destruct (r j) as [x|x]; [|discriminate].
      unfold c_shape, c_data in *; simpl in *. destruct x; simpl in *.
      now subst.
Qed.

Lemma prox_group_lasso_base_columns_witness :
  exists R,
    prox_group_lasso_base (Dense (mk_array [2%nat; 1%nat] [3; 4])) 2 = Ok R /\
    issparse R = false /\ c_shape R = [2%nat; 1%nat] /\ wf R /\
    forall j, (j < 1)%nat ->
      prox_norm2_base (getcol (Dense (mk_array [2%nat; 1%nat] [3; 4])) j) 2
      = Ok (getcol R j).
Proof.
  apply (prox_group_lasso_base_columns
           (Dense (mk_array [2%nat; 1%nat] [3; 4])) 2 1 2).
  - lra.
  - reflexivity.
  - reflexivity.
  - lia.
Defined.

(** ** The nuclear norm operator *)

Lemma rsum_S (f : nat -> R) (k : nat) : rsum f (S k) = rsum f k + f k.
Proof.
  unfold rsum. rewrite seq_S, fold_right_app. simpl.
  generalize (seq 0 k). intros l.
  induction l as [|x l IH]; simpl; [ring|]. rewrite IH. ring.
Qed.

Lemma rsum_ext (f g : nat -> R) (k : nat) :
  (forall r, (r < k)%nat -> f r = g r) -> rsum f k = rsum g k.
Proof.
  induction k as [|k IH]; intros H; [reflexivity|].
  rewrite !rsum_S, IH, (H k) by auto with arith. reflexivity.
Qed.

Lemma rsum_zero (f : nat -> R) (k : nat) :
  (forall r, (r < k)%nat -> f r = 0) -> rsum f k = 0.
Proof.
  induction k as [|k IH]; intros H; [reflexivity|].
  rewrite rsum_S, IH, (H k) by auto with arith. ring.
Qed.

(** A sum against one column of a diagonal matrix keeps one term. *)
Lemma rsum_diag (f g : nat -> R) (k r : nat) :
  (r < k)%nat ->
  rsum (fun p => f p * (if (p =? r)%nat then g p else 0)) k = f r * g r.
Proof.
  induction k as [|k IH]; intros Hr; [lia|].
  rewrite rsum_S. destruct (Nat.eq_dec r k) as [->|Hne].
  - rewrite Nat.eqb_refl, rsum_zero; [ring|].
    intros p Hp. destruct (Nat.eqb_spec p k); [lia | ring].
  - rewrite IH by lia. destruct (Nat.eqb_spec k r); [lia | ring].
Qed.

Lemma flat_map_tabulate2_one (m n : nat) (f : nat -> nat -> nat -> R) :
  flat_map (fun i => tabulate2 1 n (f i)) (seq 0 (m * 1))
  = tabulate2 m n (fun i l => f i 0%nat l).
Proof.
  rewrite Nat.mul_1_r. unfold tabulate2. apply flat_map_ext_in.
  intros i _. simpl. apply app_nil_r.
Qed.

(** The product of an [m] by [k] and a [k] by [n] matrix. *)
Lemma np_dot_matrix (a b : ndarray) (m k n : nat) :
  shape a = [m; k] -> shape b = [k; n] ->
  np_dot a b
  = Ok (mk_array [m; n]
          (tabulate2 m n (fun i l =>
             rsum (fun r => nth (i * k + r) (data a) 0
                            * nth (r * n + l) (data b) 0) k))).
Proof.
  intros Ha Hb. unfold np_dot. rewrite Ha, Hb. cbn [rev app].
  rewrite Nat.eqb_refl. do 2 f_equal.
  change (size [m]) with (m * 1)%nat. change (size []) with 1%nat.
  rewrite flat_map_tabulate2_one. reflexivity.
Qed.

Lemma entry_tabulate2 (m n : nat) (f : nat -> nat -> R) (i j : nat) :
  (i < m)%nat -> (j < n)%nat ->
  entry (mk_array [m; n] (tabulate2 m n f)) i j = f i j.
Proof.
  intros Hi Hj. unfold entry; simpl. now apply nth_tabulate2.
Qed.

Lemma Rmax_shrink_mono (x y t : R) :
  x <= y -> Rmax (x - t) 0 <= Rmax (y - t) 0.
Proof.
  intros H. unfold Rmax.
  destruct (Rle_dec (x - t) 0), (Rle_dec (y - t) 0); lra.
Qed.

(** [np.linalg.svd] does not take a sparse matrix. *)
Lemma prox_norm_nuc_base_sparse_raises :
  0 < 1 /\
  prox_norm_nuc_base (fun a => (a, a, a))
    (Sparse (mk_array [1%nat; 1%nat] [2])) 1 = Raise LinAlgError.
Proof.
  split; [lra | reflexivity].
Qed.

(** C4, amended. For a dense matrix [B] of any shape [m] by [n], a reduced
    singular value decomposition [(U, s, Vt)] of [B] returned by
    [np.linalg.svd] and a step [t > 0], the nuclear norm base operator
    returns a dense matrix [X] with [X = U diag(max(s_i - t, 0)) Vt], and
    [(U, max(s - t, 0), Vt)] is a reduced singular value decomposition of
    [X]: its singular values are [max(s_i - t, 0)] and its singular
    vectors are those of [B]. *)
Theorem prox_norm_nuc_base_shrinks_singular_values
    (svd : ndarray -> ndarray * ndarray * ndarray)
    (B U s Vt : ndarray) (t : R) :
  0 < t -> svd B = (U, s, Vt) -> is_thin_svd B U s Vt ->
  exists X,
    prox_norm_nuc_base svd (Dense B) t = Ok (Dense X) /\
    is_thin_svd X U (map_array (fun e => Rmax (e - t) 0) s) Vt.
Proof.
  intros Ht Hsvd (m & n & HB & HU & Hs & HVt & WB & WU & Ws & WVt
                    & OU & OV & Hpos & Hdesc & Hrec).
  set (k := Nat.min m n) in *.
  set (s' := map_array (fun e => Rmax (e - t) 0) s).
  assert (Hlen : length (data s) = k).
  { unfold wf_array in Ws. rewrite Hs in Ws. simpl in Ws. lia. }
  assert (Hcoord : forall l, (l < k)%nat -> coord s' l = Rmax (coord s l - t) 0).
  { intros l Hl. unfold coord, s'; simpl.
    rewrite (nth_indep _ 0 (Rmax (0 - t) 0)) by (rewrite length_map; lia).
    now rewrite (map_nth (fun e => Rmax (e - t) 0)). }
  set (D := mk_array [k; k]
              (tabulate2 k k (fun i j => if (i =? j)%nat then coord s' i else 0))).
  set (UD := mk_array [m; k]
               (tabulate2 m k (fun i l =>
                  rsum (fun r => nth (i * k + r) (data U) 0
                                 * nth (r * k + l) (data D) 0) k))).
  set (X := mk_array [m; n]
              (tabulate2 m n (fun i l =>
                 rsum (fun r => nth (i * k + r) (data UD) 0
                                * nth (r * n + l) (data Vt) 0) k))).
  exists X. split.
  - unfold prox_norm_nuc_base, np_linalg_svd, ndim. rewrite HB, Hsvd.
    cbn [length Nat.ltb Nat.leb bind np_maximum array_of].
    assert (HD : np_diag (map_array (fun e => Rmax e 0)
                            (map_array (fun e => e - t) s)) = Ok D).
    { unfold np_diag. cbn [map_array shape data]. rewrite Hs.
      unfold D, s', coord. cbn [map_array shape data].
      now rewrite map_map. }
    rewrite HD. cbn [bind].
    rewrite (np_dot_matrix U D m k k HU eq_refl). cbn [bind].
    fold UD. rewrite (np_dot_matrix UD Vt m k n eq_refl HVt). reflexivity.
  - exists m, n. fold k.
    assert (HUD : forall i l, (i < m)%nat -> (l < k)%nat ->
              nth (i * k + l) (data UD) 0 = entry U i l * coord s' l).
    { intros i l Hi Hl. unfold UD; cbn [data].
      rewrite nth_tabulate2 by assumption.
      rewrite (rsum_ext _ (fun r => entry U i r
                             * (if (r =? l)%nat then coord s' r else 0))).
      - now apply rsum_diag.
      - intros r Hr. unfold entry. rewrite HU. cbn [nth]. f_equal.
        unfold D; cbn [data]. now rewrite nth_tabulate2. }
    repeat split; try assumption.
    + unfold wf_array, X. cbn [data shape]. rewrite length_tabulate2.
      simpl. lia.
    + unfold wf_array, s'. cbn [map_array data shape].
      rewrite length_map. exact Ws.
    + intros l Hl. rewrite Hcoord by exact Hl. apply Rmax_r.
    + intros l l' Hll Hl'. rewrite !Hcoord by lia.
      apply Rmax_shrink_mono. now apply Hdesc.
    + intros i j Hi Hj. unfold X. rewrite entry_tabulate2 by assumption.
      apply rsum_ext. intros r Hr. rewrite HUD by assumption.
      f_equal. unfold entry. rewrite HVt. reflexivity.
Qed.

Lemma prox_norm_nuc_base_shrinks_singular_values_witness :
  exists X,
    prox_norm_nuc_base
      (fun _ => (mk_array [1%nat; 1%nat] [1], mk_array [1%nat] [2],
                 mk_array [1%nat; 1%nat] [1]))
      (Dense (mk_array [1%nat; 1%nat] [2])) 1 = Ok (Dense X) /\
    is_thin_svd X (mk_array [1%nat; 1%nat] [1])
      (map_array (fun e => Rmax (e - 1) 0) (mk_array [1%nat] [2]))
      (mk_array [1%nat; 1%nat] [1]).
Proof.
  apply prox_norm_nuc_base_shrinks_singular_values.
  - lra.
  - reflexivity.
  - exists 1%nat, 1%nat. simpl.
    repeat split; try reflexivity;
      try (intros p q Hp Hq; assert (p = 0%nat) by lia;
           assert (q = 0%nat) by lia; subst; unfold rsum, entry, delta;
           simpl; lra).
    + intros l Hl. assert (l = 0%nat) by lia. subst. unfold coord; simpl. lra.
    + intros i j Hi Hj. assert (i = 0%nat) by lia. assert (j = 0%nat) by lia.
      subst. unfold rsum, entry, coord; simpl. lra.
Defined.

(** ** The infinity norm operator *)

(** *** Finite sums and maxima of coordinates *)

Lemma rsum_le (f g : nat -> R) (n : nat) :
  (forall i, (i < n)%nat -> f i <= g i) -> rsum f n <= rsum g n.
Proof.
  induction n as [|n IH]; intros H; [unfold rsum; simpl; lra|].
  rewrite !rsum_S. pose proof (H n (Nat.lt_succ_diag_r n)).
  assert (rsum f n <= rsum g n) by (apply IH; auto with arith). lra.
Qed.

Lemma rsum_lin (a b : R) (f g : nat -> R) (n : nat) :
  rsum (fun i => a * f i + b * g i) n = a * rsum f n + b * rsum g n.
Proof.
  induction n as [|n IH]; [unfold rsum; simpl; ring|].
  rewrite !rsum_S, IH. ring.
Qed.

Lemma rsum_scal (a : R) (f : nat -> R) (n : nat) :
  rsum (fun i => a * f i) n = a * rsum f n.
Proof.
  induction n as [|n IH]; [unfold rsum; simpl; ring|].
  rewrite !rsum_S, IH. ring.
Qed.

Lemma rsum_sq_nonneg (f : nat -> R) (n : nat) :
  0 <= rsum (fun i => f i * f i) n.
Proof.
  rewrite <- (rsum_zero (fun _ => 0) n) by reflexivity.
  apply rsum_le. intros. nra.
Qed.

Lemma ninf_S (f : nat -> R) (n : nat) :
  ninf f (S n) = Rmax (ninf f n) (Rabs (f n)).
Proof.
  unfold ninf. rewrite seq_S, fold_right_app. simpl.
  generalize (seq 0 n). intros l.
  induction l as [|x l IH]; simpl.
  - apply Rmax_comm.
  - rewrite IH. now rewrite Rmax_assoc.
Qed.

Lemma ninf_nonneg (f : nat -> R) (n : nat) : 0 <= ninf f n.
Proof.
  induction n as [|n IH]; [unfold ninf; simpl; lra|].
  rewrite ninf_S. eapply Rle_trans; [exact IH | apply Rmax_l].
Qed.

Lemma ninf_ge (f : nat -> R) (n i : nat) :
  (i < n)%nat -> Rabs (f i) <= ninf f n.
Proof.
  induction n as [|n IH]; intros Hi; [lia|].
  rewrite ninf_S. destruct (Nat.eq_dec i n) as [->|Hne].
  - apply Rmax_r.
  - eapply Rle_trans; [apply IH; lia | apply Rmax_l].
Qed.

Lemma ninf_attained (f : nat -> R) (n : nat) :
  ninf f n = 0 \/ exists k, (k < n)%nat /\ ninf f n = Rabs (f k).
Proof.
  induction n as [|n IH]; [left; reflexivity|].
  rewrite ninf_S. unfold Rmax.
  destruct (Rle_dec (ninf f n) (Rabs (f n))).
  - right. exists n. split; [lia | reflexivity].
  - destruct IH as [H0 | (k & Hk & Hk')].
    + now left.
    + right. exists k. split; [lia | exact Hk'].
Qed.

Lemma ninf_ext (f g : nat -> R) (n : nat) :
  (forall i, (i < n)%nat -> f i = g i) -> ninf f n = ninf g n.
Proof.
  induction n as [|n IH]; intros H; [reflexivity|].
  rewrite !ninf_S, IH, (H n) by auto with arith. reflexivity.
Qed.

(** *** The duality argument on coordinate functions *)

Section Moreau.

Variable n : nat.
Variable t : R.
Variables v p : nat -> R.

Hypothesis t_pos : 0 < t.
Hypothesis p_in_ball : rsum (fun i => Rabs (p i)) n <= 1.
Hypothesis p_nearest :
  forall y : nat -> R,
    rsum (fun i => Rabs (y i)) n <= 1 ->
    rsum (fun i => (v i / t - p i) * (v i / t - p i)) n
    <= rsum (fun i => (v i / t - y i) * (v i / t - y i)) n.

(** The residual makes an obtuse angle with every direction from the
    projection into the ball. *)
Lemma proj_obtuse (y : nat -> R) :
  rsum (fun i => Rabs (y i)) n <= 1 ->
  rsum (fun i => residual t v p i * (y i - p i)) n <= 0.
Proof.
  intros Hy.
  set (C := rsum (fun i => (v i / t - p i) * (y i - p i)) n).
  set (D := rsum (fun i => (y i - p i) * (y i - p i)) n).
  assert (HD : 0 <= D) by apply rsum_sq_nonneg.
  assert (Hstep : forall eps, 0 < eps <= 1 -> 2 * C <= eps * D).
  { intros eps [He0 He1].
    set (ye := fun i => p i + eps * (y i - p i)).
    assert (Hball : rsum (fun i => Rabs (ye i)) n <= 1).
    { eapply Rle_trans.
      - apply (rsum_le _ (fun i => (1 - eps) * Rabs (p i) + eps * Rabs (y i))).
        intros i _. unfold ye.
        replace (p i + eps * (y i - p i)) with ((1 - eps) * p i + eps * y i)
          by ring.
        eapply Rle_trans; [apply Rabs_triang|].
        rewrite !Rabs_mult, (Rabs_pos_eq (1 - eps)), (Rabs_pos_eq eps) by lra.
        lra.
      - rewrite rsum_lin. nra. }
    pose proof (p_nearest ye Hball) as Hn.
    assert (Hexp : rsum (fun i => (v i / t - ye i) * (v i / t - ye i)) n
                   = rsum (fun i => (v i / t - p i) * (v i / t - p i)) n
                     - 2 * eps * C + eps * eps * D).
    { unfold C, D, ye. clear. induction n as [|m IH];
        [unfold rsum; simpl; ring|].
      rewrite !rsum_S, IH. ring. }
    rewrite Hexp in Hn. nra. }
  assert (HC : C <= 0).
  { destruct (Rle_dec C 0) as [|Hpos]; [assumption|].
    apply Rnot_le_lt in Hpos.
    pose proof (Hstep 1 ltac:(lra)) as H1.
    assert (HDpos : 0 < D) by lra.
    assert (Hq : 0 < C / D <= 1).
    { split; [apply Rdiv_lt_0_compat; lra|].
      apply (Rmult_le_reg_r D); [lra|]. field_simplify; lra. }
    pose proof (Hstep (C / D) Hq) as H2.
    replace (C / D * D) with C in H2 by (field; lra). lra. }
  replace (rsum (fun i => residual t v p i * (y i - p i)) n) with (t * C);
    [nra|].
  unfold C, residual. rewrite <- rsum_scal. apply rsum_ext.
  intros i _. field. lra.
Qed.

(** The infinity norm of the residual is attained against the
    projection. *)
Lemma residual_norm_attained :
  ninf (residual t v p) n <= rsum (fun i => residual t v p i * p i) n.
Proof.
  assert (Hsplit : forall y,
             rsum (fun i => residual t v p i * (y i - p i)) n
             = rsum (fun i => residual t v p i * y i) n
               - rsum (fun i => residual t v p i * p i) n).
  { intros y. clear. induction n as [|m IH]; [unfold rsum; simpl; ring|].
    rewrite !rsum_S, IH. ring. }
  destruct (ninf_attained (residual t v p) n) as [H0 | (k & Hk & Hmax)].
  - rewrite H0.
    assert (Hz : rsum (fun i => Rabs ((fun _ => 0) i)) n <= 1).
    { rewrite rsum_zero; [lra | intros; apply Rabs_R0]. }
    pose proof (proj_obtuse (fun _ => 0) Hz) as H. rewrite Hsplit in H.
    rewrite (rsum_zero (fun i => residual t v p i * 0)) in H
      by (intros; ring).
    lra.
  - rewrite Hmax.
    set (s := if Rle_dec 0 (residual t v p k) then 1 else -1).
    set (y := fun i => if (i =? k)%nat then s else 0).
    assert (Hs : Rabs s = 1
                 /\ residual t v p k * s = Rabs (residual t v p k)).
    { unfold s, Rabs.
      destruct (Rle_dec 0 (residual t v p k)), (Rcase_abs (residual t v p k));
        destruct (Rcase_abs 1), (Rcase_abs (-1)); split; lra. }
    assert (Hy : rsum (fun i => Rabs (y i)) n <= 1).
    { rewrite (rsum_ext _ (fun i => 1 * (if (i =? k)%nat then Rabs s else 0))).
      - rewrite (rsum_diag (fun _ => 1) (fun _ => Rabs s)) by exact Hk.
        destruct Hs as [-> _]. lra.
      - intros i _. unfold y. destruct (i =? k)%nat; [ring|].
        rewrite Rabs_R0. ring. }
    pose proof (proj_obtuse y Hy) as H. rewrite Hsplit in H.
    unfold y in H.
    rewrite (rsum_diag (residual t v p) (fun _ => s)) in H by exact Hk. lra.
Qed.

(** The sum against the projection is bounded by the infinity norm. *)
Lemma holder_ball (x : nat -> R) : rsum (fun i => x i * p i) n <= ninf x n.
Proof.
  eapply Rle_trans.
  - apply (rsum_le _ (fun i => ninf x n * Rabs (p i))).
    intros i Hi. pose proof (ninf_ge x n i Hi). pose proof (Rabs_pos (p i)).
    eapply Rle_trans; [apply Rle_abs|]. rewrite Rabs_mult. nra.
  - rewrite rsum_scal. pose proof (ninf_nonneg x n). nra.
Qed.

(** The residual minimises the proximal objective of the infinity norm. *)
Lemma residual_is_prox (x : nat -> R) :
  t * ninf (residual t v p) n
  + / 2 * rsum (fun i => (residual t v p i - v i) * (residual t v p i - v i)) n
  <= t * ninf x n + / 2 * rsum (fun i => (x i - v i) * (x i - v i)) n.
Proof.
  assert (Hexp : rsum (fun i => (x i - v i) * (x i - v i)) n
                 = rsum (fun i => (x i - residual t v p i)
                                  * (x i - residual t v p i)) n
                   - 2 * t * rsum (fun i => x i * p i) n
                   + 2 * t * rsum (fun i => residual t v p i * p i) n
                   + rsum (fun i => (residual t v p i - v i)
                                    * (residual t v p i - v i)) n).
  { unfold residual. clear. induction n as [|m IH]; [unfold rsum; simpl; ring|].
    rewrite !rsum_S, IH. ring. }
  rewrite Hexp.
  pose proof residual_norm_attained. pose proof (holder_ball x).
  pose proof (rsum_sq_nonneg (fun i => x i - residual t v p i) n). nra.
Qed.

End Moreau.

(** *** From coordinate lists to coordinate functions *)

Lemma fold_right_nth {A : Type} (h : R -> A -> A) (a0 : A) (l : list R) :
  fold_right h a0 l
  = fold_right (fun i acc => h (nth i l 0) acc) a0 (seq 0 (length l)).
Proof.
  induction l as [|e l IH]; simpl; [reflexivity|]. f_equal.
  rewrite IH, <- seq_shift. generalize (seq 0 (length l)). intros s.
  induction s as [|i s IHs]; simpl; [reflexivity | now rewrite IHs].
Qed.

Lemma norm1_rsum (l : list R) :
  norm1 l = rsum (fun i => Rabs (nth i l 0)) (length l).
Proof. unfold norm1, rsum. apply fold_right_nth. Qed.

Lemma norm_inf_ninf (l : list R) :
  norm_inf l = ninf (fun i => nth i l 0) (length l).
Proof. unfold norm_inf, ninf. apply fold_right_nth. Qed.

Lemma sumsq_rsum (l : list R) :
  sumsq l = rsum (fun i => nth i l 0 * nth i l 0) (length l).
Proof. unfold sumsq, rsum. apply fold_right_nth. Qed.

Lemma length_zip_with (f : R -> R -> R) (x y : list R) :
  length x = length y -> length (zip_with f x y) = length x.
Proof.
  revert y. induction x as [|a x IH]; intros [|b y] H; simpl in *;
    try reflexivity; try discriminate.
  f_equal. apply IH. now injection H.
Qed.

Lemma nth_zip_with (f : R -> R -> R) (x y : list R) (i : nat) :
  length x = length y -> (i < length x)%nat ->
  nth i (zip_with f x y) 0 = f (nth i x 0) (nth i y 0).
Proof.
  revert y i. induction x as [|a x IH]; intros [|b y] i H Hi; simpl in *;
    try lia; try discriminate.
  destruct i as [|i]; [reflexivity|]. apply IH; [now injection H | lia].
Qed.

Lemma zip_with_map_r (f : R -> R -> R) (g : R -> R) (x y : list R) :
  zip_with f x (map g y) = zip_with (fun a b => f a (g b)) x y.
Proof.
  revert y. induction x as [|a x IH]; intros [|b y]; simpl; try reflexivity.
  now rewrite IH.
Qed.

Lemma dist2_rsum (x y : list R) :
  length x = length y ->
  dist2 x y
  = rsum (fun i => (nth i x 0 - nth i y 0) * (nth i x 0 - nth i y 0))
         (length x).
Proof.
  intros H. unfold dist2. rewrite sumsq_rsum, length_zip_with by exact H.
  apply rsum_ext. intros i Hi. now rewrite nth_zip_with.
Qed.

Lemma nth_map_seq (f : nat -> R) (n i : nat) :
  (i < n)%nat -> nth i (map f (seq 0 n)) 0 = f i.
Proof.
  intros Hi. rewrite (nth_indep _ 0 (f 0%nat)) by now rewrite length_map, length_seq.
  now rewrite (map_nth f), seq_nth.
Qed.

Lemma nth_map_div (l : list R) (t : R) (i : nat) :
  nth i (map (fun e => e / t) l) 0 = nth i l 0 / t.
Proof.
  replace 0 with (0 / t) at 1 by (unfold Rdiv; ring).
  apply (map_nth (fun e => e / t)).
Qed.

(** The residual of the projection of [v / t] onto the unit ball of the
    1-norm is the proximal point of [t * norm_inf] at [v]. *)
Lemma moreau_norm_inf (t : R) (v p : list R) :
  0 < t -> is_proj_l1_ball (map (fun e => e / t) v) p ->
  is_prox_norm_inf t v (zip_with (fun a b => a - t * b) v p).
Proof.
  intros Ht (Hlen & Hball & Hnear). rewrite length_map in Hlen, Hnear.
  remember (length v) as n eqn:Hv. symmetry in Hv.
  set (vf := fun i => nth i v 0). set (pf := fun i => nth i p 0).
  assert (Hlr : length (zip_with (fun a b => a - t * b) v p) = n).
  { rewrite length_zip_with; congruence. }
  assert (Hb : rsum (fun i => Rabs (pf i)) n <= 1).
  { unfold pf. rewrite <- Hlen, <- norm1_rsum. exact Hball. }
  assert (Hn : forall y : nat -> R,
             rsum (fun i => Rabs (y i)) n <= 1 ->
             rsum (fun i => (vf i / t - pf i) * (vf i / t - pf i)) n
             <= rsum (fun i => (vf i / t - y i) * (vf i / t - y i)) n).
  { intros y Hy.
    assert (Hly : length (map y (seq 0 n)) = n)
      by now rewrite length_map, length_seq.
    assert (E1 : dist2 (map (fun e => e / t) v) p
                 = rsum (fun i => (vf i / t - pf i) * (vf i / t - pf i)) n).
    { rewrite dist2_rsum, length_map, Hv by (rewrite length_map; congruence).
      apply rsum_ext. intros i Hi. now rewrite nth_map_div. }
    assert (E2 : dist2 (map (fun e => e / t) v) (map y (seq 0 n))
                 = rsum (fun i => (vf i / t - y i) * (vf i / t - y i)) n).
    { rewrite dist2_rsum, length_map, Hv by (rewrite length_map; congruence).
      apply rsum_ext. intros i Hi. now rewrite nth_map_div, nth_map_seq. }
    rewrite <- E1, <- E2. apply Hnear; [exact Hly|].
    rewrite norm1_rsum, Hly. erewrite rsum_ext; [exact Hy|].
    intros i Hi. now rewrite nth_map_seq. }
  split; [congruence|].
  intros x Hx. rewrite Hv in Hx.
  pose proof (residual_is_prox n t vf pf Ht Hb Hn (fun i => nth i x 0)) as H.
  unfold residual in H.
  rewrite !norm_inf_ninf, !dist2_rsum, Hlr, Hx by congruence.
  rewrite (ninf_ext _ (fun i => vf i - t * pf i))
    by (intros i Hi; rewrite nth_zip_with; [reflexivity | congruence | lia]).
  rewrite (rsum_ext _ (fun i => (vf i - t * pf i - vf i) * (vf i - t * pf i - vf i)))
    by (intros i Hi; rewrite nth_zip_with; [reflexivity | congruence | lia]).
  exact H.
Qed.

(** ** Further properties of the L1 operator *)

Ltac case_max :=
  unfold Rmax, Rabs;
  repeat match goal with
         | |- context [Rle_dec ?a ?b] => destruct (Rle_dec a b)
         | |- context [Rcase_abs ?a] => destruct (Rcase_abs a)
         end.

Lemma prox_norm1_base_dense_shrink1 (a : ndarray) (t : R) :
  prox_norm1_base (Dense a) t = Ok (Dense (map_array (shrink1 t) a)).
Proof. apply prox_norm1_base_dense. Qed.

Lemma shrink1_pointwise_min (t v x : R) :
  0 <= t ->
  t * Rabs (shrink1 t v) + / 2 * ((shrink1 t v - v) * (shrink1 t v - v))
  <= t * Rabs x + / 2 * ((x - v) * (x - v)).
Proof.
  intros Ht. unfold shrink1.
  pose proof (Rle_0_sqr (x - v + t)) as H1.
  pose proof (Rle_0_sqr (x - v - t)) as H2.
  pose proof (Rle_0_sqr x) as H3.
  unfold Rsqr in *. case_max; nra.
Qed.

Lemma shrink1_minimises (t : R) (v x : list R) :
  0 <= t -> length x = length v ->
  t * norm1 (map (shrink1 t) v) + / 2 * dist2 (map (shrink1 t) v) v
  <= t * norm1 x + / 2 * dist2 x v.
Proof.
  intros Ht. revert x.
  induction v as [|e v IH]; intros [|y x] Hlen; simpl in Hlen;
    try discriminate.
  - unfold norm1, dist2, sumsq; simpl. lra.
  - injection Hlen as Hlen. specialize (IH x Hlen).
    pose proof (shrink1_pointwise_min t e y Ht).
    unfold norm1, dist2, sumsq in *; simpl in *. lra.
Qed.

(** X1. On an array and for a step [t >= 0] the L1 base operator
    returns a minimiser of [t * norm1 x + 1/2 * dist2 x v]. *)
Theorem prox_norm1_base_minimises (a : ndarray) (t : R) :
  0 <= t ->
  exists r,
    prox_norm1_base (Dense a) t = Ok (Dense r) /\
    shape r = shape a /\
    is_prox_norm1 t (data a) (data r).
Proof.
  intros Ht. exists (map_array (shrink1 t) a).
  split; [apply prox_norm1_base_dense_shrink1|].
  split; [reflexivity|]. split.
  - simpl. apply length_map.
  - intros x Hx. simpl. now apply shrink1_minimises.
Qed.

Lemma prox_norm1_base_minimises_witness :
  exists r,
    prox_norm1_base (Dense (mk_array [2%nat] [3; -1])) 1 = Ok (Dense r) /\
    shape r = [2%nat] /\
    is_prox_norm1 1 [3; -1] (data r).
Proof.
  apply (prox_norm1_base_minimises (mk_array [2%nat] [3; -1]) 1). lra.
Defined.

Lemma shrink1_odd (t e : R) : shrink1 t (- e) = - shrink1 t e.
Proof.
  unfold shrink1. replace (- - e - t) with (e - t) by ring. ring.
Qed.

(** X2. The L1 base operator is odd on arrays: negating the input
    negates the output, for every step. *)
Theorem prox_norm1_base_odd (a : ndarray) (t : R) :
  exists r,
    prox_norm1_base (Dense a) t = Ok r /\
    prox_norm1_base (neg (Dense a)) t = Ok (neg r).
Proof.
  exists (Dense (map_array (shrink1 t) a)).
  split; [apply prox_norm1_base_dense_shrink1|].
  simpl. rewrite prox_norm1_base_dense_shrink1. do 2 f_equal.
  unfold map_array; simpl. f_equal. rewrite !map_map.
  apply map_ext. intros e. apply shrink1_odd.
Qed.

(** X3. With the step 0 the L1 base operator returns its input, on an
    array and on a sparse matrix alike: 0 is the only step at which the
    sparse path succeeds. *)
Theorem prox_norm1_base_zero_step (v : container) :
  prox_norm1_base v 0 = Ok v /\
  (forall a t r, prox_norm1_base (Sparse a) t = Ok r -> t = 0).
Proof.
  split.
  - assert (Hid : forall e, Rmax (e - 0) 0 - Rmax (- e - 0) 0 = e).
    { intros e. case_max; lra. }
    destruct v as [a|a].
    + rewrite prox_norm1_base_dense. now rewrite map_array_id.
    + unfold prox_norm1_base; simpl.
      destruct (Req_dec_T 0 0) as [_|Hne]; [|lra]. simpl.
      unfold sub, c_shape, c_data; simpl. rewrite shape_eqb_refl.
      do 2 f_equal. destruct a as [sh d]; simpl. f_equal.
      rewrite map_map, zip_with_map. apply map_id_ext.
      intros e. specialize (Hid e).
      replace (e - 0) with e in Hid by ring.
      replace (- e - 0) with (- e) in Hid by ring. exact Hid.
  - intros a t r H. destruct (Req_dec_T t 0) as [|Hne]; [assumption|].
    rewrite prox_norm1_base_sparse in H by exact Hne. discriminate.
Qed.

Lemma shrink1_bounds (t e : R) :
  0 <= t ->
  Rabs (shrink1 t e) <= Rabs e /\ 0 <= shrink1 t e * e /\
  Rabs (shrink1 t e - e) <= t.
Proof.
  intros Ht. unfold shrink1. repeat split; case_max; nra.
Qed.

(** X4. On an array and for a step [t >= 0] the L1 base operator moves
    every entry towards zero by at most [t] and never across zero; the
    shape is kept. *)
Theorem prox_norm1_base_entry_bounds (a : ndarray) (t : R) :
  0 <= t ->
  exists r,
    prox_norm1_base (Dense a) t = Ok (Dense r) /\
    shape r = shape a /\ length (data r) = length (data a) /\
    forall i, (i < length (data a))%nat ->
      Rabs (coord r i) <= Rabs (coord a i) /\
      0 <= coord r i * coord a i /\
      Rabs (coord r i - coord a i) <= t.
Proof.
  intros Ht. exists (map_array (shrink1 t) a).
  split; [apply prox_norm1_base_dense_shrink1|].
  split; [reflexivity|]. split; [apply length_map|].
  intros i Hi. unfold coord; simpl.
  rewrite (nth_indep _ 0 (shrink1 t 0)) by now rewrite length_map.
  rewrite (map_nth (shrink1 t)). now apply shrink1_bounds.
Qed.

Lemma prox_norm1_base_entry_bounds_witness :
  exists r,
    prox_norm1_base (Dense (mk_array [2%nat] [3; -1])) 1 = Ok (Dense r) /\
    shape r = [2%nat] /\ length (data r) = 2%nat /\
    forall i, (i < 2)%nat ->
      Rabs (coord r i) <= Rabs (coord (mk_array [2%nat] [3; -1]) i) /\
      0 <= coord r i * coord (mk_array [2%nat] [3; -1]) i /\
      Rabs (coord r i - coord (mk_array [2%nat] [3; -1]) i) <= 1.
Proof.
  apply (prox_norm1_base_entry_bounds (mk_array [2%nat] [3; -1]) 1). lra.
Defined.

Lemma shrink1_nonexpansive (t x y : R) :
  0 <= t ->
  (shrink1 t x - shrink1 t y) * (shrink1 t x - shrink1 t y)
  <= (x - y) * (x - y).
Proof.
  intros Ht. apply Rsqr_le_abs_1. unfold shrink1. case_max; lra.
Qed.

Lemma shrink1_list_nonexpansive (t : R) (x y : list R) :
  0 <= t ->
  dist2 (map (shrink1 t) x) (map (shrink1 t) y) <= dist2 x y.
Proof.
  intros Ht. revert y.
  induction x as [|a x IH]; intros [|b y]; unfold dist2 in *; simpl;
    try lra.
  pose proof (shrink1_nonexpansive t a b Ht). specialize (IH y). lra.
Qed.

(** X5. On arrays and for a step [t >= 0] the L1 base operator is
    non-expansive: two outputs are at most as far apart as the two
    inputs of equal shape they come from. *)
Theorem prox_norm1_base_nonexpansive (a b : ndarray) (t : R) :
  0 <= t -> shape a = shape b ->
  exists ra rb,
    prox_norm1_base (Dense a) t = Ok (Dense ra) /\
    prox_norm1_base (Dense b) t = Ok (Dense rb) /\
    dist2 (data ra) (data rb) <= dist2 (data a) (data b).
Proof.
  intros Ht _. exists (map_array (shrink1 t) a), (map_array (shrink1 t) b).
  split; [apply prox_norm1_base_dense_shrink1|].
  split; [apply prox_norm1_base_dense_shrink1|].
  simpl. now apply shrink1_list_nonexpansive.
Qed.

Lemma prox_norm1_base_nonexpansive_witness :
  exists ra rb,
    prox_norm1_base (Dense (mk_array [1%nat] [3])) 1 = Ok (Dense ra) /\
    prox_norm1_base (Dense (mk_array [1%nat] [-1])) 1 = Ok (Dense rb) /\
    dist2 (data ra) (data rb) <= dist2 [3] [-1].
Proof.
  apply (prox_norm1_base_nonexpansive
           (mk_array [1%nat] [3]) (mk_array [1%nat] [-1]) 1).
  - lra.
  - reflexivity.
Defined.

(** ** Further properties of the L2 operator *)

Lemma sumsq_zero_all (l : list R) :
  sumsq l = 0 -> l = repeat 0 (length l).
Proof.
  induction l as [|e l IH]; simpl; [reflexivity|].
  intros H. pose proof (sumsq_nonneg l) as Hl. fold (sumsq l) in H.
  assert (He : e = 0) by nra. subst e.
  f_equal. apply IH. nra.
Qed.

Lemma sumsq_repeat_zero (k : nat) : sumsq (repeat 0 k) = 0.
Proof.
  induction k as [|k IH]; simpl; [reflexivity|].
  fold (sumsq (repeat 0 k)). rewrite IH. ring.
Qed.

Lemma inner_sq_le (x v : list R) :
  inner x v * inner x v <= sumsq x * sumsq v.
Proof.
  revert v. induction x as [|a x IH]; intros [|b v]; simpl.
  - unfold inner; simpl. lra.
  - unfold inner; simpl. lra.
  - unfold inner; simpl. fold (sumsq x).
    pose proof (sumsq_nonneg x). nra.
  - specialize (IH v). unfold inner in *; simpl.
    fold (sumsq x). fold (sumsq v).
    set (A := fold_right Rplus 0 (zip_with Rmult x v)) in *.
    pose proof (sumsq_nonneg x) as HX. pose proof (sumsq_nonneg v) as HV.
    set (X := sumsq x) in *. set (V := sumsq v) in *.
    assert (Hcross : 2 * (a * b * A) <= a * a * V + X * (b * b)).
    { assert (H0 : 0 <= a * a * V + X * (b * b)) by nra.
      assert (Hsq : (2 * (a * b * A)) * (2 * (a * b * A))
                    <= (a * a * V + X * (b * b)) * (a * a * V + X * (b * b))).
      { pose proof (Rle_0_sqr (a * a * V - X * (b * b))) as Hd.
        unfold Rsqr in Hd.
        assert (0 <= (a * b) * (a * b)) by nra.
        assert ((a * b) * (a * b) * (A * A) <= (a * b) * (a * b) * (X * V))
          by (apply Rmult_le_compat_l; assumption).
        nra. }
      destruct (Rle_dec (2 * (a * b * A)) (a * a * V + X * (b * b)));
        [assumption | nra]. }
    nra.
Qed.

(** The Cauchy-Schwarz inequality for coordinate lists. *)
Lemma cauchy_schwarz (x v : list R) : inner x v <= norm2 x * norm2 v.
Proof.
  unfold norm2. rewrite <- sqrt_mult by apply sumsq_nonneg.
  eapply Rle_trans; [apply Rle_abs|]. rewrite <- sqrt_Rsqr_abs.
  apply sqrt_le_1_alt. unfold Rsqr. apply inner_sq_le.
Qed.

Lemma dist2_expand (x v : list R) :
  length x = length v ->
  dist2 x v = sumsq x - 2 * inner x v + sumsq v.
Proof.
  revert v. induction x as [|a x IH]; intros [|b v] H; simpl in H;
    try discriminate.
  - unfold dist2, inner; simpl. ring.
  - injection H as H. specialize (IH v H).
    unfold dist2, inner in *; simpl. fold (sumsq x). fold (sumsq v).
    rewrite IH. ring.
Qed.

Lemma dist2_scale (c : R) (v : list R) :
  dist2 (map (fun e => c * e) v) v = (c - 1) * (c - 1) * sumsq v.
Proof.
  induction v as [|e v IH]; unfold dist2 in *; simpl; [ring|].
  fold (sumsq v). rewrite IH. ring.
Qed.

Lemma dist2_zero_l (v : list R) : dist2 (repeat 0 (length v)) v = sumsq v.
Proof.
  induction v as [|e v IH]; unfold dist2 in *; simpl; [reflexivity|].
  fold (sumsq v). rewrite IH. ring.
Qed.

Lemma norm2_sq (l : list R) : norm2 l * norm2 l = sumsq l.
Proof. apply sqrt_sqrt, sumsq_nonneg. Qed.

Lemma norm2_nonneg (l : list R) : 0 <= norm2 l.
Proof. apply sqrt_pos. Qed.

(** The zero vector is the proximal point when the norm is at most the
    step. *)
Lemma l2_zero_minimises (t : R) (v : list R) :
  norm2 v <= t -> is_prox_norm2 t v (repeat 0 (length v)).
Proof.
  intros Hn. split; [apply repeat_length|].
  intros x Hx. rewrite dist2_zero_l, (dist2_expand x v Hx).
  unfold norm2 at 1. rewrite sumsq_repeat_zero, sqrt_0.
  pose proof (cauchy_schwarz x v). pose proof (norm2_sq x).
  pose proof (norm2_nonneg x). pose proof (norm2_nonneg v). nra.
Qed.

(** The scaled vector is the proximal point when the norm exceeds the
    step. *)
Lemma l2_scale_minimises (t : R) (v : list R) :
  0 <= t -> t < norm2 v ->
  is_prox_norm2 t v (map (fun e => (1 - t / norm2 v) * e) v).
Proof.
  intros Ht Hn. split; [apply length_map|].
  intros x Hx. set (n := norm2 v) in *.
  assert (Hc : 0 < 1 - t / n).
  { apply Rlt_0_minus. apply (Rmult_lt_reg_r n); [lra|].
    field_simplify; lra. }
  assert (Hr : norm2 (map (fun e => (1 - t / n) * e) v) = n - t).
  { unfold norm2. rewrite norm_scale, Rabs_pos_eq by lra.
    fold (norm2 v). fold n. field. lra. }
  assert (Hd : dist2 (map (fun e => (1 - t / n) * e) v) v = t * t).
  { rewrite dist2_scale, <- (norm2_sq v). fold n. field. lra. }
  rewrite Hr, Hd, (dist2_expand x v Hx).
  pose proof (cauchy_schwarz x v) as Hcs. fold n in Hcs.
  pose proof (norm2_sq x). pose proof (norm2_sq v) as Hv. fold n in Hv.
  pose proof (norm2_nonneg x).
  pose proof (Rle_0_sqr (norm2 x - (n - t))) as Hs. unfold Rsqr in Hs.
  nra.
Qed.

(** X6. For a step [t >= 0] the L2 base operator returns, on a
    well-formed vector or matrix (dense or sparse), a minimiser of
    [t * norm2 x + 1/2 * dist2 x v] with the shape and the representation
    of its input. *)
Theorem prox_norm2_base_minimises (v : container) (t n : R) :
  0 <= t -> wf v -> norm_of v = Some n ->
  exists r,
    prox_norm2_base v t = Ok r /\
    issparse r = issparse v /\ c_shape r = c_shape v /\
    is_prox_norm2 t (c_data v) (c_data r).
Proof.
  intros Ht Hwf Hn.
  assert (Hnv : n = norm2 (c_data v)).
  { unfold norm_of in Hn.
    destruct (length (c_shape v)) as [|[|[|k]]]; now inversion Hn. }
  assert (Hlen : length (c_data v) = size (c_shape v)).
  { destruct v as [a|a]; simpl in Hwf; unfold c_data, c_shape; simpl;
      unfold wf_array in Hwf; intuition. }
  rewrite (prox_norm2_base_eq _ _ _ Hn).
  assert (Hzero : norm2 (c_data v) <= t ->
            issparse (zero_like v) = issparse v /\
            c_shape (zero_like v) = c_shape v /\
            is_prox_norm2 t (c_data v) (c_data (zero_like v))).
  { intros Hle. repeat split; try (destruct v; reflexivity).
    - destruct v; unfold c_data; simpl; rewrite repeat_length; symmetry;
        exact Hlen.
    - replace (c_data (zero_like v)) with (repeat 0 (length (c_data v)))
        by (destruct v; unfold c_data, c_shape in *; simpl in *;
            now rewrite Hlen).
      now apply l2_zero_minimises. }
  destruct (Req_dec_T n 0) as [Hn0|Hn0].
  - exists (zero_like v). split; [reflexivity|]. apply Hzero. lra.
  - destruct (Rle_dec n t) as [Hle|Hgt].
    + assert (Hc : 1 - t * 1 / n <= 0).
      { pose proof (norm2_nonneg (c_data v)).
        apply Rle_minus. rewrite Rmult_1_r.
        apply (Rmult_le_reg_r n); [lra|]. field_simplify; lra. }
      rewrite Rmax_right by exact Hc. rewrite scalar_mul_zero by exact Hwf.
      exists (zero_like v). split; [reflexivity|]. apply Hzero. lra.
    + apply Rnot_le_lt in Hgt.
      replace (t * 1 / n) with (t / n) by (field; lra).
      assert (Hc : 0 < 1 - t / n).
      { apply Rlt_0_minus. apply (Rmult_lt_reg_r n); [lra|].
        field_simplify; lra. }
      rewrite Rmax_left by lra.
      eexists. split; [reflexivity|].
      repeat split; try (destruct v; reflexivity).
      * destruct v; unfold c_data; simpl; apply length_map.
      * intros x Hx.
        replace (c_data (scalar_mul (1 - t / n) v))
          with (map (fun e => (1 - t / n) * e) (c_data v))
          by (destruct v; reflexivity).
        rewrite Hnv. apply l2_scale_minimises; [exact Ht | lra | exact Hx].
Qed.

Lemma prox_norm2_base_minimises_witness :
  exists r,
    prox_norm2_base (Dense (mk_array [2%nat] [3; 4])) 2 = Ok r /\
    issparse r = false /\ c_shape r = [2%nat] /\
    is_prox_norm2 2 [3; 4] (c_data r).
Proof.
  apply (prox_norm2_base_minimises (Dense (mk_array [2%nat] [3; 4])) 2 5).
  - lra.
  - reflexivity.
  - unfold norm_of; simpl. now rewrite sqrt_25.
Defined.

Lemma c_data_scalar_mul (c : R) (v : container) :
  c_data (scalar_mul c v) = map (fun e => c * e) (c_data v).
Proof. destruct v; reflexivity. Qed.

Lemma wf_length (v : container) :
  wf v -> length (c_data v) = size (c_shape v).
Proof.
  destruct v as [a|a]; simpl; unfold c_data, c_shape, wf_array; simpl;
    intuition.
Qed.

Lemma norm_of_norm2 (v : container) (n : R) :
  norm_of v = Some n -> n = norm2 (c_data v).
Proof.
  unfold norm_of. destruct (length (c_shape v)) as [|[|[|k]]];
    intros H; now inversion H.
Qed.

(** X7. With the step 0 the L2 base operator returns its input, for
    every well-formed vector or matrix, dense or sparse. *)
Theorem prox_norm2_base_zero_step (v : container) (n : R) :
  wf v -> norm_of v = Some n -> prox_norm2_base v 0 = Ok v.
Proof.
  intros Hwf Hn. rewrite (prox_norm2_base_eq _ _ _ Hn).
  destruct (Req_dec_T n 0) as [Hn0|Hn0].
  - f_equal. pose proof (norm_of_norm2 _ _ Hn) as Hnv.
    assert (Hs : sumsq (c_data v) = 0).
    { rewrite <- norm2_sq, <- Hnv, Hn0. ring. }
    apply sumsq_zero_all in Hs. rewrite (wf_length v Hwf) in Hs.
    destruct v as [[sh d]|[sh d]]; unfold c_data, c_shape in Hs;
      simpl in *; unfold zeros_array; now rewrite <- Hs.
  - replace (Rmax (1 - 0 * 1 / n) 0) with 1.
    + f_equal. apply map_container_id. intros; ring.
    + replace (1 - 0 * 1 / n) with 1 by (field; exact Hn0).
      rewrite Rmax_left; lra.
Qed.

Lemma prox_norm2_base_zero_step_witness :
  prox_norm2_base (Sparse (mk_array [1%nat; 2%nat] [3; 4])) 0
  = Ok (Sparse (mk_array [1%nat; 2%nat] [3; 4])).
Proof.
  apply (prox_norm2_base_zero_step
           (Sparse (mk_array [1%nat; 2%nat] [3; 4])) 5).
  - split; reflexivity.
  - unfold norm_of; simpl. now rewrite sqrt_25.
Defined.

(** X8. For a step [t >= 0] the norm of what the L2 base operator
    returns is [max(norm v - t, 0)], and every entry of the result is the
    entry of the input scaled by one common factor between 0 and 1. *)
Theorem prox_norm2_base_norm_and_factor (v : container) (t n : R) :
  0 <= t -> wf v -> norm_of v = Some n ->
  exists r c,
    prox_norm2_base v t = Ok r /\
    norm_of r = Some (Rmax (n - t) 0) /\
    0 <= c <= 1 /\ c_data r = map (fun e => c * e) (c_data v).
Proof.
  intros Ht Hwf Hn. pose proof (norm_of_nonneg _ _ Hn) as Hpos.
  rewrite (prox_norm2_base_eq _ _ _ Hn).
  assert (Hz : norm_of (zero_like v) = Some 0).
  { rewrite <- (scalar_mul_zero v Hwf), (norm_of_scalar_mul 0 v n Hn).
    rewrite Rabs_R0. f_equal. ring. }
  assert (Hd : c_data (zero_like v) = map (fun e => 0 * e) (c_data v)).
  { rewrite <- (scalar_mul_zero v Hwf). apply c_data_scalar_mul. }
  destruct (Req_dec_T n 0) as [Hn0|Hn0].
  - exists (zero_like v), 0. split; [reflexivity|].
    rewrite Rmax_right by lra. repeat split; auto; lra.
  - destruct (Rle_dec n t) as [Hle|Hgt].
    + assert (Hc : 1 - t * 1 / n <= 0).
      { apply Rle_minus. rewrite Rmult_1_r.
        apply (Rmult_le_reg_r n); [lra|]. field_simplify; lra. }
      rewrite Rmax_right by exact Hc. rewrite scalar_mul_zero by exact Hwf.
      exists (zero_like v), 0. split; [reflexivity|].
      rewrite Rmax_right by lra. repeat split; auto; lra.
    + apply Rnot_le_lt in Hgt.
      replace (t * 1 / n) with (t / n) by (field; lra).
      assert (Hc : 0 < 1 - t / n <= 1).
      { split.
        - apply Rlt_0_minus. apply (Rmult_lt_reg_r n); [lra|].
          field_simplify; lra.
        - assert (0 <= t / n).
          { unfold Rdiv. apply Rmult_le_pos; [lra|].
            left. apply Rinv_0_lt_compat. lra. }
          lra. }
      rewrite Rmax_left by lra.
      exists (scalar_mul (1 - t / n) v), (1 - t / n).
      split; [reflexivity|]. split; [|split; [lra | apply c_data_scalar_mul]].
      rewrite (norm_of_scalar_mul _ _ _ Hn), Rabs_pos_eq by lra.
      rewrite Rmax_left by lra. f_equal. field. lra.
Qed.

Lemma prox_norm2_base_norm_and_factor_witness :
  exists r c,
    prox_norm2_base (Dense (mk_array [2%nat] [3; 4])) 2 = Ok r /\
    norm_of r = Some (Rmax (5 - 2) 0) /\
    0 <= c <= 1 /\ c_data r = map (fun e => c * e) [3; 4].
Proof.
  apply (prox_norm2_base_norm_and_factor
           (Dense (mk_array [2%nat] [3; 4])) 2 5).
  - lra.
  - reflexivity.
  - unfold norm_of; simpl. now rewrite sqrt_25.
Defined.

Lemma zero_like_scalar_mul (c : R) (v : container) :
  zero_like (scalar_mul c v) = zero_like v
  /\ scalar_mul c (zero_like v) = zero_like v.
Proof.
  split; destruct v as [a|a]; simpl; try reflexivity;
    unfold map_array, zeros_array; simpl; do 2 f_equal;
    induction (size (shape a)) as [|k IH]; simpl; try reflexivity;
    rewrite IH; f_equal; ring.
Qed.

(** X9. The L2 base operator is positively homogeneous: scaling the
    input and the step by the same [c > 0] scales the output by [c]. *)
Theorem prox_norm2_base_homogeneous (v : container) (t n c : R) :
  0 < c -> norm_of v = Some n ->
  exists r,
    prox_norm2_base v t = Ok r /\
    prox_norm2_base (scalar_mul c v) (c * t) = Ok (scalar_mul c r).
Proof.
  intros Hc Hn. pose proof (norm_of_nonneg _ _ Hn) as Hpos.
  pose proof (norm_of_scalar_mul c v n Hn) as Hcn.
  rewrite Rabs_pos_eq in Hcn by lra.
  rewrite (prox_norm2_base_eq _ _ _ Hn), (prox_norm2_base_eq _ _ _ Hcn).
  destruct (zero_like_scalar_mul c v) as [Hz1 Hz2].
  destruct (Req_dec_T n 0) as [Hn0|Hn0].
  - exists (zero_like v). split; [reflexivity|].
    destruct (Req_dec_T (c * n) 0) as [|Hne]; [|nra].
    now rewrite Hz1, Hz2.
  - eexists. split; [reflexivity|].
    destruct (Req_dec_T (c * n) 0) as [He|_]; [nra|].
    replace (c * t * 1 / (c * n)) with (t * 1 / n) by (field; lra).
    f_equal. unfold scalar_mul.
    destruct v as [a|a]; simpl; f_equal; unfold map_array; simpl; f_equal;
      rewrite !map_map; apply map_ext; intros; ring.
Qed.

Lemma prox_norm2_base_homogeneous_witness :
  exists r,
    prox_norm2_base (Dense (mk_array [2%nat] [3; 4])) 2 = Ok r /\
    prox_norm2_base (scalar_mul 10 (Dense (mk_array [2%nat] [3; 4]))) (10 * 2)
    = Ok (scalar_mul 10 r).
Proof.
  apply (prox_norm2_base_homogeneous
           (Dense (mk_array [2%nat] [3; 4])) 2 5 10).
  - lra.
  - unfold norm_of; simpl. now rewrite sqrt_25.
Defined.

(** X10. The L2 base operator does not check its step: for [t < 0] and
    a vector or matrix of non-zero norm [n] it returns [(1 - t/n) v],
    whose norm [n - t] exceeds that of the input. *)
Theorem prox_norm2_base_negative_step (v : container) (t n : R) :
  t < 0 -> norm_of v = Some n -> n <> 0 ->
  prox_norm2_base v t = Ok (scalar_mul (1 - t / n) v) /\
  norm_of (scalar_mul (1 - t / n) v) = Some (n - t) /\ n < n - t.
Proof.
  intros Ht Hn Hn0. pose proof (norm_of_nonneg _ _ Hn) as Hpos.
  rewrite (prox_norm2_base_eq _ _ _ Hn).
  destruct (Req_dec_T n 0); [contradiction|].
  replace (t * 1 / n) with (t / n) by (field; lra).
  assert (Hc : 1 < 1 - t / n).
  { assert (0 < - t / n) by (apply Rdiv_lt_0_compat; lra).
    replace (t / n) with (- (- t / n)) by (field; lra). lra. }
  rewrite Rmax_left by lra. split; [reflexivity|]. split; [|lra].
  rewrite (norm_of_scalar_mul _ _ _ Hn), Rabs_pos_eq by lra.
  f_equal. field. lra.
Qed.

Lemma prox_norm2_base_negative_step_witness :
  prox_norm2_base (Dense (mk_array [2%nat] [3; 4])) (-5)
  = Ok (scalar_mul (1 - (-5) / 5) (Dense (mk_array [2%nat] [3; 4]))).
Proof.
  refine (proj1 (prox_norm2_base_negative_step
                   (Dense (mk_array [2%nat] [3; 4])) (-5) 5 _ _ _)).
  - lra.
  - unfold norm_of; simpl. now rewrite sqrt_25.
  - lra.
Defined.

(** X11. On a vector with one entry the L2 and the L1 base operators
    agree, for every step [t >= 0]. *)
Theorem prox_norm2_base_one_entry (x t : R) :
  0 <= t ->
  prox_norm2_base (Dense (mk_array [1%nat] [x])) t
  = prox_norm1_base (Dense (mk_array [1%nat] [x])) t.
Proof.
  intros Ht. rewrite prox_norm1_base_dense.
  assert (Hn : norm_of (Dense (mk_array [1%nat] [x])) = Some (Rabs x)).
  { unfold norm_of; simpl. rewrite Rplus_0_r. f_equal.
    apply (sqrt_Rsqr_abs x). }
  rewrite (prox_norm2_base_eq _ _ _ Hn).
  unfold scalar_mul, map_container, map_array, zero_like, zeros_array; simpl.
  destruct (Req_dec_T (Rabs x) 0) as [H0|H0].
  - do 4 f_equal.
    assert (x = 0) by (destruct (Req_dec_T x 0); [assumption|];
                       now apply Rabs_no_R0 in H0).
    subst x. case_max; lra.
  - do 4 f_equal.
    assert (Hpos : 0 < Rabs x) by (pose proof (Rabs_pos x); lra).
    destruct (Rle_dec (Rabs x) t) as [Hle|Hgt].
    + assert (Hc : 1 - t * 1 / Rabs x <= 0).
      { apply Rle_minus. rewrite Rmult_1_r.
        apply (Rmult_le_reg_r (Rabs x)); [lra|]. field_simplify; lra. }
      rewrite Rmax_right by exact Hc. revert Hle. case_max; lra.
    + apply Rnot_le_lt in Hgt.
      assert (Hc : 0 < 1 - t * 1 / Rabs x).
      { apply Rlt_0_minus. rewrite Rmult_1_r.
        apply (Rmult_lt_reg_r (Rabs x)); [lra|]. field_simplify; lra. }
      rewrite Rmax_left by lra.
      revert Hgt H0 Hpos. unfold Rabs at 1 2 3 4.
      destruct (Rcase_abs x); intros; unfold Rmax;
        repeat match goal with
               | |- context [Rle_dec ?a ?b] => destruct (Rle_dec a b)
               end; try lra; field; lra.
Qed.

Lemma prox_norm2_base_one_entry_witness :
  prox_norm2_base (Dense (mk_array [1%nat] [3])) 1
  = prox_norm1_base (Dense (mk_array [1%nat] [3])) 1.
Proof.
  apply prox_norm2_base_one_entry. lra.
Defined.

Lemma inner_scale_r (c : R) (x v : list R) :
  inner x (map (fun e => c * e) v) = c * inner x v.
Proof.
  revert v. induction x as [|a x IH]; intros [|b v]; unfold inner in *;
    simpl; try ring.
  rewrite IH. ring.
Qed.

Lemma inner_zero_r (x : list R) (k : nat) : inner x (repeat 0 k) = 0.
Proof.
  revert k. induction x as [|a x IH]; intros [|k]; unfold inner in *;
    simpl; try ring.
  rewrite IH. ring.
Qed.

Lemma dist2_sym (x y : list R) : dist2 x y = dist2 y x.
Proof.
  revert y. induction x as [|a x IH]; intros [|b y]; unfold dist2 in *;
    simpl; try reflexivity.
  rewrite IH. ring.
Qed.

Lemma inner_diff (x y u v : list R) :
  length y = length x -> length u = length x -> length v = length x ->
  inner (zip_with Rminus x y) (zip_with Rminus u v)
  = inner x u - inner x v - inner y u + inner y v.
Proof.
  revert y u v.
  induction x as [|a x IH]; intros [|b y] [|c u] [|d v] Hy Hu Hv;
    simpl in *; try discriminate.
  - unfold inner; simpl. ring.
  - injection Hy as Hy. injection Hu as Hu. injection Hv as Hv.
    specialize (IH y u v Hy Hu Hv). unfold inner in *; simpl.
    rewrite IH. ring.
Qed.

Lemma l2_zero_strong (t : R) (v x : list R) :
  norm2 v <= t -> length x = length v ->
  t * norm2 (repeat 0 (length v)) + / 2 * dist2 (repeat 0 (length v)) v
  + / 2 * dist2 x (repeat 0 (length v))
  <= t * norm2 x + / 2 * dist2 x v.
Proof.
  intros Hn Hx.
  rewrite dist2_zero_l, (dist2_expand x v Hx).
  rewrite (dist2_expand x (repeat 0 (length v)))
    by now rewrite repeat_length.
  rewrite inner_zero_r. unfold norm2 at 1.
  rewrite sumsq_repeat_zero, sqrt_0.
  pose proof (cauchy_schwarz x v). pose proof (norm2_nonneg x).
  pose proof (norm2_nonneg v). nra.
Qed.

Lemma l2_scale_strong (t : R) (v x : list R) :
  0 <= t -> t < norm2 v -> length x = length v ->
  t * norm2 (map (fun e => (1 - t / norm2 v) * e) v)
  + / 2 * dist2 (map (fun e => (1 - t / norm2 v) * e) v) v
  + / 2 * dist2 x (map (fun e => (1 - t / norm2 v) * e) v)
  <= t * norm2 x + / 2 * dist2 x v.
Proof.
  intros Ht Hn Hx. set (n := norm2 v) in *. set (c := 1 - t / n).
  assert (Hcn : c * n = n - t) by (unfold c; field; lra).
  assert (Hc : 0 < c <= 1).
  { split; [nra|]. unfold c.
    assert (0 <= t / n).
    { unfold Rdiv. apply Rmult_le_pos; [lra|].
      left. apply Rinv_0_lt_compat. lra. }
    lra. }
  assert (Hr : norm2 (map (fun e => c * e) v) = n - t).
  { unfold norm2. rewrite norm_scale, Rabs_pos_eq by lra.
    fold (norm2 v). fold n. exact Hcn. }
  assert (Hd : dist2 (map (fun e => c * e) v) v = t * t).
  { rewrite dist2_scale, <- (norm2_sq v). fold n.
    replace ((c - 1) * (c - 1) * (n * n)) with ((n - c * n) * (n - c * n))
      by ring.
    rewrite Hcn. ring. }
  rewrite Hr, Hd, (dist2_expand x v Hx).
  rewrite (dist2_expand x (map (fun e => c * e) v))
    by now rewrite length_map.
  rewrite inner_scale_r, sumsq_scale, <- (norm2_sq v). fold n.
  pose proof (cauchy_schwarz x v) as Hcs. fold n in Hcs.
  pose proof (norm2_nonneg x) as Hx0.
  assert (Hp : (1 - c) * inner x v <= t * norm2 x).
  { assert (H1c : (1 - c) * n = t) by lra.
    replace (t * norm2 x) with ((1 - c) * (norm2 x * n))
      by (rewrite <- H1c; ring).
    apply Rmult_le_compat_l; lra. }
  replace (c * c * (n * n)) with ((c * n) * (c * n)) by ring.
  rewrite Hcn. nra.
Qed.

(** Two proximal points in the strong sense are at most as far apart
    as the points they belong to. *)
Lemma strong_prox_nonexpansive (t : R) (u v ru rv : list R)
    (N : list R -> R) :
  length v = length u -> length ru = length u -> length rv = length u ->
  (forall x, length x = length u ->
     t * N ru + / 2 * dist2 ru u + / 2 * dist2 x ru
     <= t * N x + / 2 * dist2 x u) ->
  (forall x, length x = length v ->
     t * N rv + / 2 * dist2 rv v + / 2 * dist2 x rv
     <= t * N x + / 2 * dist2 x v) ->
  dist2 ru rv <= dist2 u v.
Proof.
  intros Hv Hru Hrv Su Sv.
  pose proof (Su rv Hrv) as H1.
  pose proof (Sv ru ltac:(congruence)) as H2.
  rewrite (dist2_sym rv ru) in H1.
  rewrite (dist2_expand ru u), (dist2_expand rv u) in H1 by congruence.
  rewrite (dist2_expand rv v), (dist2_expand ru v) in H2 by congruence.
  assert (HI : dist2 ru rv
               <= inner (zip_with Rminus ru rv) (zip_with Rminus u v)).
  { rewrite inner_diff by congruence. lra. }
  pose proof (cauchy_schwarz (zip_with Rminus ru rv) (zip_with Rminus u v))
    as Hcs.
  fold (dist2 ru rv) in Hcs. fold (dist2 u v) in Hcs.
  unfold norm2 in Hcs. fold (dist2 ru rv) in Hcs. fold (dist2 u v) in Hcs.
  set (D := dist2 ru rv) in *. set (E := dist2 u v) in *.
  assert (HD : 0 <= D) by apply sumsq_nonneg.
  assert (HE : 0 <= E) by apply sumsq_nonneg.
  pose proof (sqrt_sqrt D HD) as HsD. pose proof (sqrt_sqrt E HE) as HsE.
  pose proof (sqrt_pos D). pose proof (sqrt_pos E).
  destruct (Rle_dec (sqrt D) (sqrt E)); nra.
Qed.

Lemma prox_norm2_base_strong (v : container) (t n : R) :
  0 <= t -> wf v -> norm_of v = Some n ->
  exists r,
    prox_norm2_base v t = Ok r /\
    length (c_data r) = length (c_data v) /\
    forall x, length x = length (c_data v) ->
      t * norm2 (c_data r) + / 2 * dist2 (c_data r) (c_data v)
      + / 2 * dist2 x (c_data r)
      <= t * norm2 x + / 2 * dist2 x (c_data v).
Proof.
  intros Ht Hwf Hn. pose proof (norm_of_norm2 _ _ Hn) as Hnv.
  pose proof (wf_length v Hwf) as Hlen.
  rewrite (prox_norm2_base_eq _ _ _ Hn).
  assert (Hzd : c_data (zero_like v) = repeat 0 (length (c_data v))).
  { rewrite Hlen. destruct v; reflexivity. }
  assert (Hzero : norm2 (c_data v) <= t ->
            length (c_data (zero_like v)) = length (c_data v) /\
            forall x, length x = length (c_data v) ->
              t * norm2 (c_data (zero_like v))
              + / 2 * dist2 (c_data (zero_like v)) (c_data v)
              + / 2 * dist2 x (c_data (zero_like v))
              <= t * norm2 x + / 2 * dist2 x (c_data v)).
  { intros Hle. rewrite Hzd. split; [apply repeat_length|].
    intros x Hx. now apply l2_zero_strong. }
  destruct (Req_dec_T n 0) as [Hn0|Hn0].
  - exists (zero_like v). split; [reflexivity|]. apply Hzero. lra.
  - destruct (Rle_dec n t) as [Hle|Hgt].
    + assert (Hc : 1 - t * 1 / n <= 0).
      { pose proof (norm2_nonneg (c_data v)).
        apply Rle_minus. rewrite Rmult_1_r.
        apply (Rmult_le_reg_r n); [lra|]. field_simplify; lra. }
      rewrite Rmax_right by exact Hc. rewrite scalar_mul_zero by exact Hwf.
      exists (zero_like v). split; [reflexivity|]. apply Hzero. lra.
    + apply Rnot_le_lt in Hgt.
      replace (t * 1 / n) with (t / n) by (field; lra).
      assert (Hc : 0 < 1 - t / n).
      { apply Rlt_0_minus. apply (Rmult_lt_reg_r n); [lra|].
        field_simplify; lra. }
      rewrite Rmax_left by lra.
      eexists. split; [reflexivity|]. rewrite c_data_scalar_mul.
      split; [apply length_map|].
      intros x Hx. rewrite Hnv.
      apply l2_scale_strong; [exact Ht | lra | exact Hx].
Qed.

(** X12. For a step [t >= 0] the L2 base operator is non-expansive: on
    two well-formed vectors or matrices of the same shape its outputs
    are at most as far apart as the inputs. *)
Theorem prox_norm2_base_nonexpansive (u v : container) (t nu nv : R) :
  0 <= t -> wf u -> wf v -> c_shape u = c_shape v ->
  norm_of u = Some nu -> norm_of v = Some nv ->
  exists ru rv,
    prox_norm2_base u t = Ok ru /\ prox_norm2_base v t = Ok rv /\
    dist2 (c_data ru) (c_data rv) <= dist2 (c_data u) (c_data v).
Proof.
  intros Ht Hwu Hwv Hs Hnu Hnv.
  destruct (prox_norm2_base_strong u t nu Ht Hwu Hnu) as (ru & Hru & Hlu & Su).
  destruct (prox_norm2_base_strong v t nv Ht Hwv Hnv) as (rv & Hrv & Hlv & Sv).
  exists ru, rv. split; [exact Hru|]. split; [exact Hrv|].
  assert (Hlen : length (c_data v) = length (c_data u)).
  { rewrite (wf_length u Hwu), (wf_length v Hwv). now rewrite Hs. }
  apply (strong_prox_nonexpansive t _ _ _ _ norm2);
    try assumption; congruence.
Qed.

Lemma prox_norm2_base_nonexpansive_witness :
  exists ru rv,
    prox_norm2_base (Dense (mk_array [2%nat] [3; 4])) 2 = Ok ru /\
    prox_norm2_base (Dense (mk_array [2%nat] [0; 0])) 2 = Ok rv /\
    dist2 (c_data ru) (c_data rv) <= dist2 [3; 4] [0; 0].
Proof.
  apply (prox_norm2_base_nonexpansive
           (Dense (mk_array [2%nat] [3; 4]))
           (Dense (mk_array [2%nat] [0; 0])) 2 5 0).
  - lra.
  - reflexivity.
  - reflexivity.
  - reflexivity.
  - unfold norm_of; simpl. now rewrite sqrt_25.
  - unfold norm_of; simpl.
    replace (0 * 0 + (0 * 0 + 0)) with 0 by ring. now rewrite sqrt_0.
Defined.

(** ** Further properties of the infinity norm operator *)

Lemma dist2_refl (x : list R) : dist2 x x = 0.
Proof.
  induction x as [|a x IH]; unfold dist2 in *; simpl; [reflexivity|].
  rewrite IH. ring.
Qed.

Lemma dist2_zero_eq (x y : list R) :
  length x = length y -> dist2 x y = 0 -> x = y.
Proof.
  revert y. induction x as [|a x IH]; intros [|b y] Hlen H; simpl in Hlen;
    try discriminate; [reflexivity|].
  injection Hlen as Hlen. unfold dist2 in *; simpl in H.
  pose proof (sumsq_nonneg (zip_with Rminus x y)) as Hs.
  fold (sumsq (zip_with Rminus x y)) in H.
  assert (a = b) by nra. subst b. f_equal. apply IH; [exact Hlen | nra].
Qed.

Lemma norm1_scale (c : R) (l : list R) :
  norm1 (map (fun e => c * e) l) = Rabs c * norm1 l.
Proof.
  induction l as [|e l IH]; unfold norm1 in *; simpl; [ring|].
  rewrite IH, Rabs_mult. ring.
Qed.

Lemma norm1_div (t : R) (l : list R) :
  0 < t -> norm1 (map (fun e => e / t) l) = norm1 l / t.
Proof.
  intros Ht.
  rewrite (map_ext (fun e => e / t) (fun e => / t * e))
    by (intros; unfold Rdiv; ring).
  rewrite norm1_scale, Rabs_pos_eq.
  - unfold Rdiv. ring.
  - left. now apply Rinv_0_lt_compat.
Qed.

(** A point of the ball is its own projection. *)
Lemma proj_l1_ball_inside (z p : list R) :
  is_proj_l1_ball z p -> norm1 z <= 1 -> p = z.
Proof.
  intros (Hlen & _ & Hnear) Hz. symmetry.
  apply dist2_zero_eq; [congruence|].
  pose proof (Hnear z eq_refl Hz) as H. rewrite dist2_refl in H.
  pose proof (sumsq_nonneg (zip_with Rminus z p)). unfold dist2 in *. lra.
Qed.

(** What the operator returns when the projection has the shape of
    its argument. *)
Lemma prox_norm_inf_base_value
    (proj_l1 : container -> result container) (a p : ndarray) (t : R) :
  proj_l1 (div_scalar (Dense a) t) = Ok (Dense p) -> shape p = shape a ->
  prox_norm_inf_base proj_l1 (Dense a) t
  = Ok (Dense (mk_array (shape a)
                 (zip_with (fun x y => x - t * y) (data a) (data p)))).
Proof.
  intros Hp Hs. unfold prox_norm_inf_base. rewrite Hp. cbn [bind].
  unfold sub, c_shape, c_data. cbn [scalar_mul map_container array_of
    map_array shape data issparse andb].
  rewrite Hs, shape_eqb_refl. now rewrite zip_with_map_r.
Qed.

(** X13. If the 1-norm of a well-formed array [v] is at most the step
    [t > 0] and [proj_l1] returns the projection of [v / t], the
    infinity norm base operator returns the zero array of the shape of
    [v]. *)
Theorem prox_norm_inf_base_small_input
    (proj_l1 : container -> result container) (a p : ndarray) (t : R) :
  0 < t -> wf_array a ->
  proj_l1 (div_scalar (Dense a) t) = Ok (Dense p) ->
  shape p = shape a ->
  is_proj_l1_ball (map (fun e => e / t) (data a)) (data p) ->
  norm1 (data a) <= t ->
  prox_norm_inf_base proj_l1 (Dense a) t = Ok (np_zeros (shape a)).
Proof.
  intros Ht Hwf Hp Hs Hproj Hsmall.
  rewrite (prox_norm_inf_base_value _ _ _ _ Hp Hs).
  assert (Hin : norm1 (map (fun e => e / t) (data a)) <= 1).
  { rewrite norm1_div by exact Ht.
    apply (Rmult_le_reg_r t); [exact Ht|]. field_simplify; lra. }
  rewrite (proj_l1_ball_inside _ _ Hproj Hin).
  unfold np_zeros, zeros_array. do 3 f_equal.
  rewrite <- Hwf. generalize (data a). intros l.
  induction l as [|e l IH]; simpl; [reflexivity|].
  rewrite IH. f_equal. field. lra.
Qed.

Lemma zip_residual (t : R) (v p : list R) :
  length p = length v ->
  zip_with Rminus v (zip_with (fun x y => x - t * y) v p)
  = map (fun e => t * e) p.
Proof.
  revert p. induction v as [|a v IH]; intros [|b p] H; simpl in H;
    try discriminate; [reflexivity|].
  injection H as H. simpl. rewrite (IH p H). f_equal. ring.
Qed.

(** X14. If [proj_l1] returns the projection of [v / t] for a step
    [t > 0], the infinity norm base operator moves [v] by at most [t]
    in the 1-norm. *)
Theorem prox_norm_inf_base_moves_at_most_t
    (proj_l1 : container -> result container) (a p : ndarray) (t : R) :
  0 < t ->
  proj_l1 (div_scalar (Dense a) t) = Ok (Dense p) ->
  shape p = shape a ->
  is_proj_l1_ball (map (fun e => e / t) (data a)) (data p) ->
  exists r,
    prox_norm_inf_base proj_l1 (Dense a) t = Ok (Dense r) /\
    shape r = shape a /\
    norm1 (zip_with Rminus (data a) (data r)) <= t.
Proof.
  intros Ht Hp Hs (Hlen & Hball & _). rewrite length_map in Hlen.
  eexists. split; [apply (prox_norm_inf_base_value _ _ _ _ Hp Hs)|].
  split; [reflexivity|]. cbn [data].
  rewrite (zip_residual t _ _ Hlen), norm1_scale, Rabs_pos_eq by lra.
  nra.
Qed.

(** ** Further properties of the nuclear norm operator *)

Lemma tabulate2_ext (m n : nat) (f g : nat -> nat -> R) :
  (forall i j, (i < m)%nat -> (j < n)%nat -> f i j = g i j) ->
  tabulate2 m n f = tabulate2 m n g.
Proof.
  intros H. unfold tabulate2. apply flat_map_ext_in. intros i Hi.
  apply in_seq in Hi. apply map_ext_in. intros j Hj. apply in_seq in Hj.
  apply H; lia.
Qed.

Lemma tabulate2_zero (m n : nat) :
  tabulate2 m n (fun _ _ => 0) = repeat 0 (m * n).
Proof.
  unfold tabulate2. induction m as [|m IH]; [reflexivity|].
  rewrite seq_S, flat_map_app, IH. simpl. rewrite app_nil_r.
  replace (map (fun _ : nat => 0) (seq 0 n)) with (repeat 0 n).
  - rewrite <- repeat_app. f_equal. lia.
  - clear. generalize 0%nat. induction n as [|n IH]; intros s;
      simpl; [reflexivity | now rewrite <- IH].
Qed.

Lemma tabulate2_nth (m n : nat) (d : list R) :
  length d = (m * n)%nat ->
  tabulate2 m n (fun i j => nth (i * n + j) d 0) = d.
Proof.
  intros Hd. apply (nth_ext _ _ 0 0).
  - now rewrite length_tabulate2.
  - intros idx Hidx. rewrite length_tabulate2 in Hidx.
    destruct n as [|n]; [lia|].
    pose proof (Nat.div_mod idx (S n) ltac:(lia)) as Hdm.
    pose proof (Nat.mod_upper_bound idx (S n) ltac:(lia)) as Hmod.
    assert (Hdiv : (idx / S n < m)%nat) by (apply Nat.Div0.div_lt_upper_bound; lia).
    rewrite Hdm at 1.
    replace (S n * (idx / S n))%nat with (idx / S n * S n)%nat by lia.
    rewrite nth_tabulate2 by assumption.
    f_equal. lia.
Qed.

(** The matrix the operator returns, entry by entry, when the factors
    have the shapes of a reduced decomposition. *)
Lemma prox_norm_nuc_base_value
    (svd : ndarray -> ndarray * ndarray * ndarray)
    (B U s Vt : ndarray) (m k n : nat) (t : R) :
  svd B = (U, s, Vt) -> (2 <= ndim B)%nat ->
  shape U = [m; k] -> shape s = [k] -> shape Vt = [k; n] -> wf_array s ->
  prox_norm_nuc_base svd (Dense B) t
  = Ok (Dense (mk_array [m; n]
         (tabulate2 m n (fun i j =>
            rsum (fun l => entry U i l * Rmax (coord s l - t) 0
                           * entry Vt l j) k)))).
Proof.
  intros Hsvd HB HU Hs HVt Ws.
  assert (Hlen : length (data s) = k).
  { unfold wf_array in Ws. rewrite Hs in Ws. simpl in Ws. lia. }
  set (D := mk_array [k; k]
              (tabulate2 k k (fun i j =>
                 if (i =? j)%nat then Rmax (coord s i - t) 0 else 0))).
  unfold prox_norm_nuc_base, np_linalg_svd.
  destruct (Nat.ltb_spec (ndim B) 2) as [Hlt|_]; [lia|].
  rewrite Hsvd. cbn [bind np_maximum array_of].
  assert (HD : np_diag (map_array (fun e => Rmax e 0)
                          (map_array (fun e => e - t) s)) = Ok D).
  { unfold np_diag. cbn [map_array shape data]. rewrite Hs.
    unfold D. do 2 f_equal. apply tabulate2_ext. intros i j Hi Hj.
    destruct (i =? j)%nat; [|reflexivity].
    unfold coord. rewrite map_map.
    rewrite (nth_indep _ 0 (Rmax (0 - t) 0)) by (rewrite length_map; lia).
    now rewrite (map_nth (fun e => Rmax (e - t) 0)). }
  rewrite HD. cbn [bind].
  rewrite (np_dot_matrix U D m k k HU eq_refl). cbn [bind].
  erewrite np_dot_matrix; [|reflexivity|exact HVt]. cbn [bind data].
  do 3 f_equal. apply tabulate2_ext. intros i j Hi Hj.
  apply rsum_ext. intros l Hl. rewrite nth_tabulate2 by assumption.
  rewrite (rsum_ext _ (fun r => entry U i r
             * (if (r =? l)%nat then Rmax (coord s r - t) 0 else 0))).
  - rewrite (rsum_diag (entry U i) (fun r => Rmax (coord s r - t) 0))
      by exact Hl.
    f_equal. unfold entry. rewrite HVt. reflexivity.
  - intros r Hr. unfold entry. rewrite HU. cbn [nth]. f_equal.
    unfold D; cbn [data]. now rewrite nth_tabulate2.
Qed.

(** X15. [np.linalg.svd] refuses a sparse matrix and an array of fewer
    than two dimensions, so on such input the nuclear norm base
    operator raises [LinAlgError], whatever the step. *)
Theorem prox_norm_nuc_base_refused
    (svd : ndarray -> ndarray * ndarray * ndarray)
    (B : container) (t : R) :
  issparse B = true \/ (length (c_shape B) < 2)%nat ->
  prox_norm_nuc_base svd B t = Raise LinAlgError.
Proof.
  intros [H|H]; destruct B as [a|a]; try discriminate; try reflexivity.
  unfold prox_norm_nuc_base, np_linalg_svd, ndim.
  unfold c_shape in H; simpl in H.
  destruct (Nat.ltb_spec (length (shape a)) 2); [reflexivity | lia].
Qed.

Lemma prox_norm_nuc_base_refused_witness :
  prox_norm_nuc_base (fun a => (a, a, a)) (Dense (mk_array [2%nat] [3; 4])) 1
  = Raise LinAlgError.
Proof.
  apply prox_norm_nuc_base_refused. right. simpl. lia.
Defined.

(** X16. If no singular value of a dense matrix [B] exceeds the step
    [t], the nuclear norm base operator returns the zero matrix of the
    shape of [B]. *)
Theorem prox_norm_nuc_base_large_step
    (svd : ndarray -> ndarray * ndarray * ndarray)
    (B U s Vt : ndarray) (t : R) :
  svd B = (U, s, Vt) -> is_thin_svd B U s Vt ->
  (forall l, (l < length (data s))%nat -> coord s l <= t) ->
  prox_norm_nuc_base svd (Dense B) t = Ok (np_zeros (shape B)).
Proof.
  intros Hsvd (m & n & HB & HU & Hs & HVt & _ & _ & Ws & _) Hle.
  assert (Hlen : length (data s) = Nat.min m n).
  { unfold wf_array in Ws. rewrite Hs in Ws. simpl in Ws. lia. }
  rewrite (prox_norm_nuc_base_value svd B U s Vt m (Nat.min m n) n t);
    try assumption; [|unfold ndim; rewrite HB; simpl; lia].
  rewrite HB. unfold np_zeros, zeros_array. do 3 f_equal.
  simpl size. rewrite Nat.mul_1_r, <- tabulate2_zero.
  apply tabulate2_ext. intros i j _ _. apply rsum_zero. intros l Hl.
  rewrite Rmax_right; [ring|]. rewrite Hlen in Hle.
  specialize (Hle l Hl). lra.
Qed.

Lemma prox_norm_nuc_base_large_step_witness :
  prox_norm_nuc_base
    (fun _ => (mk_array [1%nat; 1%nat] [1], mk_array [1%nat] [2],
               mk_array [1%nat; 1%nat] [1]))
    (Dense (mk_array [1%nat; 1%nat] [2])) 3
  = Ok (np_zeros [1%nat; 1%nat]).
Proof.
  apply (prox_norm_nuc_base_large_step _ (mk_array [1%nat; 1%nat] [2])
           (mk_array [1%nat; 1%nat] [1]) (mk_array [1%nat] [2])
           (mk_array [1%nat; 1%nat] [1]) 3).
  - reflexivity.
  - exists 1%nat, 1%nat. simpl.
    repeat split; try reflexivity;
      try (intros p q Hp Hq; assert (p = 0%nat) by lia;
           assert (q = 0%nat) by lia; subst; unfold rsum, entry, delta;
           simpl; lra).
    + intros l Hl. assert (l = 0%nat) by lia. subst. unfold coord; simpl. lra.
    + intros i j Hi Hj. assert (i = 0%nat) by lia. assert (j = 0%nat) by lia.
      subst. unfold rsum, entry, coord; simpl. lra.
  - intros l Hl. simpl in Hl. assert (l = 0%nat) by lia. subst.
    unfold coord; simpl. lra.
Defined.

(** X17. With the step 0 the nuclear norm base operator returns the
    dense matrix it was given, when [np.linalg.svd] returns a reduced
    singular value decomposition of it. *)
Theorem prox_norm_nuc_base_zero_step
    (svd : ndarray -> ndarray * ndarray * ndarray)
    (B U s Vt : ndarray) :
  svd B = (U, s, Vt) -> is_thin_svd B U s Vt ->
  prox_norm_nuc_base svd (Dense B) 0 = Ok (Dense B).
Proof.
  intros Hsvd (m & n & HB & HU & Hs & HVt & WB & _ & Ws & _ & _ & _
                 & Hpos & _ & Hrec).
  rewrite (prox_norm_nuc_base_value svd B U s Vt m (Nat.min m n) n 0);
    try assumption; [|unfold ndim; rewrite HB; simpl; lia].
  do 2 f_equal. destruct B as [sh d]. simpl in *. subst sh. f_equal.
  unfold wf_array in WB; simpl in WB. rewrite Nat.mul_1_r in WB.
  transitivity (tabulate2 m n (fun i j => nth (i * n + j) d 0));
    [|now apply tabulate2_nth].
  apply tabulate2_ext. intros i j Hi Hj.
  specialize (Hrec i j Hi Hj). unfold entry at 1 in Hrec. simpl in Hrec.
  rewrite Hrec. apply rsum_ext. intros l Hl.
  rewrite Rmax_left; [f_equal; f_equal; ring|].
  specialize (Hpos l Hl). lra.
Qed.

Lemma prox_norm_nuc_base_zero_step_witness :
  prox_norm_nuc_base
    (fun _ => (mk_array [1%nat; 1%nat] [1], mk_array [1%nat] [2],
               mk_array [1%nat; 1%nat] [1]))
    (Dense (mk_array [1%nat; 1%nat] [2])) 0
  = Ok (Dense (mk_array [1%nat; 1%nat] [2])).
Proof.
  apply (prox_norm_nuc_base_zero_step _ (mk_array [1%nat; 1%nat] [2])
           (mk_array [1%nat; 1%nat] [1]) (mk_array [1%nat] [2])
           (mk_array [1%nat; 1%nat] [1])).
  - reflexivity.
  - exists 1%nat, 1%nat. simpl.
    repeat split; try reflexivity;
      try (intros p q Hp Hq; assert (p = 0%nat) by lia;
           assert (q = 0%nat) by lia; subst; unfold rsum, entry, delta;
           simpl; lra).
    + intros l Hl. assert (l = 0%nat) by lia. subst. unfold coord; simpl. lra.
    + intros i j Hi Hj. assert (i = 0%nat) by lia. assert (j = 0%nat) by lia.
      subst. unfold rsum, entry, coord; simpl. lra.
Defined.

(** ** Failures of the group lasso operator *)

(** X18. The group lasso base operator reads [B.shape[1]]: a container
    with fewer than two dimensions, dense or sparse, raises
    [IndexError], whatever the step. *)
Theorem prox_group_lasso_base_needs_two_axes (B : container) (t : R) :
  (length (c_shape B) < 2)%nat ->
  prox_group_lasso_base B t = Raise IndexError.
Proof.
  intros H. unfold prox_group_lasso_base, shape_index.
  assert (Hn : nth_error (c_shape B) 1 = None)
    by (apply nth_error_None; lia).
  rewrite Hn. destruct (issparse B); reflexivity.
Qed.

Lemma prox_group_lasso_base_needs_two_axes_witness :
  prox_group_lasso_base (Dense (mk_array [2%nat] [3; 4])) 1
  = Raise IndexError.
Proof.
  apply prox_group_lasso_base_needs_two_axes. simpl. lia.
Defined.

(** X19. On an array whose second axis has length 0 the group lasso
    base operator has no column to stack and raises the [ValueError] of
    [np.vstack], whatever the step. *)
Theorem prox_group_lasso_base_no_columns (a : ndarray) (t : R) :
  nth_error (shape a) 1 = Some 0%nat ->
  prox_group_lasso_base (Dense a) t = Raise ValueError.
Proof.
  intros H. unfold prox_group_lasso_base, shape_index, c_shape.
  cbn [issparse array_of]. rewrite H. reflexivity.
Qed.

Lemma prox_group_lasso_base_no_columns_witness :
  prox_group_lasso_base (Dense (mk_array [3%nat; 0%nat] [])) 1
  = Raise ValueError.
Proof.
  apply prox_group_lasso_base_no_columns. reflexivity.
Defined.

(** ** Homogeneity of the L1 operator *)

Lemma shrink1_scale (c t e : R) :
  0 < c -> shrink1 (c * t) (c * e) = c * shrink1 t e.
Proof.
  intros Hc. unfold shrink1.
  replace (c * e - c * t) with (c * (e - t)) by ring.
  replace (- (c * e) - c * t) with (c * (- e - t)) by ring.
  assert (H : forall u, Rmax (c * u) 0 = c * Rmax u 0).
  { intros u. unfold Rmax.
    destruct (Rle_dec (c * u) 0), (Rle_dec u 0); nra. }
  rewrite !H. ring.
Qed.

(** X20. The L1 base operator is positively homogeneous on arrays:
    scaling the input and the step by the same [c > 0] scales the output
    by [c]. *)
Theorem prox_norm1_base_homogeneous (a : ndarray) (t c : R) :
  0 < c ->
  exists r,
    prox_norm1_base (Dense a) t = Ok r /\
    prox_norm1_base (scalar_mul c (Dense a)) (c * t) = Ok (scalar_mul c r).
Proof.
  intros Hc. exists (Dense (map_array (shrink1 t) a)).
  split; [apply prox_norm1_base_dense_shrink1|].
  simpl. rewrite prox_norm1_base_dense_shrink1. do 2 f_equal.
  unfold map_array; simpl. f_equal. rewrite !map_map.
  apply map_ext. intros e. now apply shrink1_scale.
Qed.

Lemma prox_norm1_base_homogeneous_witness :
  exists r,
    prox_norm1_base (Dense (mk_array [2%nat] [3; -1])) 1 = Ok r /\
    prox_norm1_base (scalar_mul 10 (Dense (mk_array [2%nat] [3; -1]))) (10 * 1)
    = Ok (scalar_mul 10 r).
Proof.
  apply (prox_norm1_base_homogeneous (mk_array [2%nat] [3; -1]) 1 10). lra.
Defined.

(** ** Non-expansiveness of the infinity norm operator *)

(** The residual of the projection minimises the proximal objective
    with a quadratic margin. *)
Lemma residual_is_prox_strong (n : nat) (t : R) (v p x : nat -> R) :
  0 < t ->
  rsum (fun i => Rabs (p i)) n <= 1 ->
  (forall y : nat -> R,
     rsum (fun i => Rabs (y i)) n <= 1 ->
     rsum (fun i => (v i / t - p i) * (v i / t - p i)) n
     <= rsum (fun i => (v i / t - y i) * (v i / t - y i)) n) ->
  t * ninf (residual t v p) n
  + / 2 * rsum (fun i => (residual t v p i - v i) * (residual t v p i - v i)) n
  + / 2 * rsum (fun i => (x i - residual t v p i)
                         * (x i - residual t v p i)) n
  <= t * ninf x n + / 2 * rsum (fun i => (x i - v i) * (x i - v i)) n.
Proof.
  intros Ht Hb Hn.
  assert (Hexp : rsum (fun i => (x i - v i) * (x i - v i)) n
                 = rsum (fun i => (x i - residual t v p i)
                                  * (x i - residual t v p i)) n
                   - 2 * t * rsum (fun i => x i * p i) n
                   + 2 * t * rsum (fun i => residual t v p i * p i) n
                   + rsum (fun i => (residual t v p i - v i)
                                    * (residual t v p i - v i)) n).
  { unfold residual. clear. induction n as [|m IH];
      [unfold rsum; simpl; ring|].
    rewrite !rsum_S, IH. ring. }
  rewrite Hexp.
  pose proof (residual_norm_attained n t v p Ht Hb Hn).
  pose proof (holder_ball n p Hb x). nra.
Qed.

Lemma moreau_norm_inf_strong (t : R) (v p x : list R) :
  0 < t -> is_proj_l1_ball (map (fun e => e / t) v) p ->
  length x = length v ->
  t * norm_inf (zip_with (fun a b => a - t * b) v p)
  + / 2 * dist2 (zip_with (fun a b => a - t * b) v p) v
  + / 2 * dist2 x (zip_with (fun a b => a - t * b) v p)
  <= t * norm_inf x + / 2 * dist2 x v.
Proof.
  intros Ht (Hlen & Hball & Hnear) Hx. rewrite length_map in Hlen, Hnear.
  remember (length v) as n eqn:Hv. symmetry in Hv.
  set (vf := fun i => nth i v 0). set (pf := fun i => nth i p 0).
  assert (Hlr : length (zip_with (fun a b => a - t * b) v p) = n).
  { rewrite length_zip_with; congruence. }
  assert (Hb : rsum (fun i => Rabs (pf i)) n <= 1).
  { unfold pf. rewrite <- Hlen, <- norm1_rsum. exact Hball. }
  assert (Hn : forall y : nat -> R,
             rsum (fun i => Rabs (y i)) n <= 1 ->
             rsum (fun i => (vf i / t - pf i) * (vf i / t - pf i)) n
             <= rsum (fun i => (vf i / t - y i) * (vf i / t - y i)) n).
  { intros y Hy.
    assert (Hly : length (map y (seq 0 n)) = n)
      by now rewrite length_map, length_seq.
    assert (E1 : dist2 (map (fun e => e / t) v) p
                 = rsum (fun i => (vf i / t - pf i) * (vf i / t - pf i)) n).
    { rewrite dist2_rsum, length_map, Hv by (rewrite length_map; congruence).
      apply rsum_ext. intros i Hi. now rewrite nth_map_div. }
    assert (E2 : dist2 (map (fun e => e / t) v) (map y (seq 0 n))
                 = rsum (fun i => (vf i / t - y i) * (vf i / t - y i)) n).
    { rewrite dist2_rsum, length_map, Hv by (rewrite length_map; congruence).
      apply rsum_ext. intros i Hi. now rewrite nth_map_div, nth_map_seq. }
    rewrite <- E1, <- E2. apply Hnear; [exact Hly|].
    rewrite norm1_rsum, Hly. erewrite rsum_ext; [exact Hy|].
    intros i Hi. now rewrite nth_map_seq. }
  pose proof (residual_is_prox_strong n t vf pf (fun i => nth i x 0)
                Ht Hb Hn) as H.
  unfold residual in H.
  rewrite !norm_inf_ninf, !dist2_rsum, Hlr, Hx by congruence.
  rewrite (ninf_ext _ (fun i => vf i - t * pf i))
    by (intros i Hi; rewrite nth_zip_with; [reflexivity | congruence | lia]).
  rewrite (rsum_ext _ (fun i => (vf i - t * pf i - vf i)
                                * (vf i - t * pf i - vf i)))
    by (intros i Hi; rewrite nth_zip_with; [reflexivity | congruence | lia]).
  rewrite (rsum_ext (fun i => (nth i x 0 - nth i (zip_with _ v p) 0) * _)
                    (fun i => (nth i x 0 - (vf i - t * pf i))
                              * (nth i x 0 - (vf i - t * pf i))))
    by (intros i Hi; rewrite nth_zip_with; [reflexivity | congruence | lia]).
  exact H.
Qed.

(** X21. For a step [t > 0] the infinity norm base operator is
    non-expansive on arrays of the same shape, whenever [proj_l1]
    returns the projections of the two scaled inputs. *)
Theorem prox_norm_inf_base_nonexpansive
    (proj_l1 : container -> result container)
    (a b pa pb : ndarray) (t : R) :
  0 < t -> shape a = shape b -> length (data a) = length (data b) ->
  proj_l1 (div_scalar (Dense a) t) = Ok (Dense pa) -> shape pa = shape a ->
  is_proj_l1_ball (map (fun e => e / t) (data a)) (data pa) ->
  proj_l1 (div_scalar (Dense b) t) = Ok (Dense pb) -> shape pb = shape b ->
  is_proj_l1_ball (map (fun e => e / t) (data b)) (data pb) ->
  exists ra rb,
    prox_norm_inf_base proj_l1 (Dense a) t = Ok (Dense ra) /\
    prox_norm_inf_base proj_l1 (Dense b) t = Ok (Dense rb) /\
    dist2 (data ra) (data rb) <= dist2 (data a) (data b).
Proof.
  intros Ht Hs Hl Hpa Hsa Ha Hpb Hsb Hb.
  eexists. eexists.
  split; [apply (prox_norm_inf_base_value _ _ _ _ Hpa Hsa)|].
  split; [apply (prox_norm_inf_base_value _ _ _ _ Hpb Hsb)|].
  cbn [data].
  assert (Hla : length (data pa) = length (data a)).
  { destruct Ha as (H & _). now rewrite length_map in H. }
  assert (Hlb : length (data pb) = length (data b)).
  { destruct Hb as (H & _). now rewrite length_map in H. }
  apply (strong_prox_nonexpansive t _ _ _ _ norm_inf).
  - congruence.
  - rewrite length_zip_with; congruence.
  - rewrite length_zip_with; congruence.
  - intros x Hx. now apply moreau_norm_inf_strong.
  - intros x Hx. now apply moreau_norm_inf_strong.
Qed.

Lemma prox_norm_inf_base_nonexpansive_witness :
  exists ra rb,
    prox_norm_inf_base (fun c => Ok c) (Dense (mk_array [1%nat] [1 / 2])) 1
    = Ok (Dense ra) /\
    prox_norm_inf_base (fun c => Ok c) (Dense (mk_array [1%nat] [0])) 1
    = Ok (Dense rb) /\
    dist2 (data ra) (data rb) <= dist2 [1 / 2] [0].
Proof.
  assert (Hin : forall z : R, Rabs z <= 1 -> is_proj_l1_ball [z] [z]).
  { intros z Hz. split; [reflexivity|]. split.
    - unfold norm1; simpl. lra.
    - intros y _ _. rewrite dist2_refl. apply sumsq_nonneg. }
  apply (prox_norm_inf_base_nonexpansive (fun c => Ok c)
           (mk_array [1%nat] [1 / 2]) (mk_array [1%nat] [0])
           (mk_array [1%nat] [1 / 2 / 1]) (mk_array [1%nat] [0 / 1]) 1);
    try reflexivity; try lra.
  - apply Hin. replace (1 / 2 / 1) with (1 / 2) by lra.
    rewrite Rabs_pos_eq; lra.
  - apply Hin. replace (0 / 1) with 0 by lra. rewrite Rabs_R0. lra.
Defined.

(** ** The projection onto the unit ball of the 1-norm *)

(** *** Sorting in descending order *)

Lemma in_insert_desc (x y : R) (l : list R) :
  In y (insert_desc x l) -> y = x \/ In y l.
Proof.
  induction l as [|a l IH]; simpl.
  - intros [H|[]]; auto.
  - destruct (Rle_dec a x); simpl.
    + intros [H|[H|H]]; auto.
    + intros [H|H]; auto. destruct (IH H); auto.
Qed.

Lemma descending_insert (x : R) (l : list R) :
  descending l -> descending (insert_desc x l).
Proof.
  induction l as [|a l IH]; simpl.
  - intros _. split; [intros y []|exact I].
  - intros [Ha Hl]. destruct (Rle_dec a x) as [Hle|Hgt]; simpl.
    + split; [|split; assumption].
      intros y [<-|Hy]; [exact Hle|].
      apply Rle_trans with a; [now apply Ha | exact Hle].
    + split; [|now apply IH].
      intros y Hy. apply in_insert_desc in Hy. destruct Hy as [->|Hy].
      * lra.
      * now apply Ha.
Qed.

Lemma descending_sort (l : list R) : descending (sort_desc l).
Proof.
  induction l as [|a l IH]; simpl; [exact I|].
  now apply descending_insert.
Qed.

Lemma descending_nth (l : list R) (i j : nat) :
  descending l -> (i <= j)%nat -> (j < length l)%nat ->
  nth j l 0 <= nth i l 0.
Proof.
  revert i j. induction l as [|a l IH]; intros i j Hd Hij Hj; simpl in Hj;
    [lia|].
  destruct Hd as [Ha Hl]. destruct i as [|i], j as [|j]; simpl; try lia.
  - lra.
  - apply Ha. apply nth_In. lia.
  - apply IH; [assumption | lia | lia].
Qed.

Lemma length_insert_desc (x : R) (l : list R) :
  length (insert_desc x l) = S (length l).
Proof.
  induction l as [|a l IH]; simpl; [reflexivity|].
  destruct (Rle_dec a x); simpl; [reflexivity | now rewrite IH].
Qed.

Lemma length_sort_desc (l : list R) : length (sort_desc l) = length l.
Proof.
  induction l as [|a l IH]; simpl; [reflexivity|].
  now rewrite length_insert_desc, IH.
Qed.

(** Sorting does not change a sum over the entries. *)
Lemma sum_insert_desc (g : R -> R) (x : R) (l : list R) :
  fold_right Rplus 0 (map g (insert_desc x l))
  = g x + fold_right Rplus 0 (map g l).
Proof.
  induction l as [|a l IH]; simpl; [reflexivity|].
  destruct (Rle_dec a x); simpl; [reflexivity|]. rewrite IH. ring.
Qed.

Lemma sum_sort_desc (g : R -> R) (l : list R) :
  fold_right Rplus 0 (map g (sort_desc l)) = fold_right Rplus 0 (map g l).
Proof.
  induction l as [|a l IH]; simpl; [reflexivity|].
  now rewrite sum_insert_desc, IH.
Qed.

Lemma in_sort_desc (y : R) (l : list R) : In y (sort_desc l) -> In y l.
Proof.
  induction l as [|a l IH]; simpl; [auto|].
  intros H. apply in_insert_desc in H. destruct H as [->|H]; auto.
Qed.

(** *** The threshold *)

Lemma sum_map_rsum (g : R -> R) (l : list R) :
  fold_right Rplus 0 (map g l) = rsum (fun i => g (nth i l 0)) (length l).
Proof.
  unfold rsum. rewrite <- (fold_right_nth (fun e acc => g e + acc) 0 l).
  induction l as [|a l IH]; simpl; [reflexivity | now rewrite IH].
Qed.

Lemma prefix_sum_S (u : list R) (j : nat) :
  (j < length u)%nat -> prefix_sum u (S j) = prefix_sum u j + nth j u 0.
Proof.
  unfold prefix_sum. revert j.
  induction u as [|a u IH]; intros j Hj; simpl in Hj; [lia|].
  destruct j as [|j]; [simpl; ring|].
  change (firstn (S (S j)) (a :: u)) with (a :: firstn (S j) u).
  change (firstn (S j) (a :: u)) with (a :: firstn j u).
  cbn [fold_right nth]. rewrite IH by lia. ring.
Qed.

Lemma prefix_sum_rsum (u : list R) (j : nat) :
  (j <= length u)%nat -> prefix_sum u j = rsum (fun i => nth i u 0) j.
Proof.
  induction j as [|j IH]; intros Hj.
  - reflexivity.
  - rewrite prefix_sum_S, rsum_S, IH by lia. reflexivity.
Qed.

(** The index [last_active] picks: the last one between 1 and the length
    whose entry exceeds its threshold. *)
Lemma last_active_spec (u : list R) :
  let P := fun j => threshold_at u j < nth (j - 1) u 0 in
  let rho := last_active u in
  (rho = 0%nat /\ forall j, (1 <= j <= length u)%nat -> ~ P j) \/
  ((1 <= rho <= length u)%nat /\ P rho /\
   forall j, (rho < j <= length u)%nat -> ~ P j).
Proof.
  intros P rho. unfold rho, last_active. fold P.
  generalize (length u). intros n.
  induction n as [|n IH].
  - left. split; [reflexivity | intros j Hj; exfalso; lia].
  - rewrite seq_S, fold_left_app. cbn [fold_left].
    change (1 + n)%nat with (S n).
    set (r := fold_left _ (seq 1 n) 0%nat) in *.
    destruct (Rlt_dec (threshold_at u (S n)) (nth (S n - 1) u 0)) as [Hp|Hn].
    + right. split; [lia|]. split; [exact Hp | intros j Hj; exfalso; lia].
    + destruct IH as [[H0 Hall] | (Hr & HP & Hall)].
      * left. split; [exact H0|]. intros j Hj.
        destruct (Nat.eq_dec j (S n)) as [->|]; [exact Hn | apply Hall; lia].
      * right. split; [lia|]. split; [exact HP|]. intros j Hj.
        destruct (Nat.eq_dec j (S n)) as [->|]; [exact Hn | apply Hall; lia].
Qed.

(** On a list in descending order whose sum exceeds 1 the threshold is
    positive and the parts above it add up to 1. *)
Lemma threshold_sorted (u : list R) :
  descending u -> 1 < fold_right Rplus 0 u ->
  (forall x, In x u -> 0 <= x) ->
  let theta := threshold_at u (last_active u) in
  0 < theta /\
  rsum (fun i => Rmax (nth i u 0 - theta) 0) (length u) = 1.
Proof.
  intros Hd Hsum Hpos theta.
  set (n := length u).
  assert (Hn : (1 <= n)%nat).
  { unfold n. destruct u; simpl in *; [lra | lia]. }
  assert (HP1 : threshold_at u 1 < nth (1 - 1) u 0).
  { unfold threshold_at. rewrite prefix_sum_S by (fold n; lia).
    unfold prefix_sum; simpl. lra. }
  destruct (last_active_spec u) as [[_ Hall] | (Hr & HP & Hall)].
  { exfalso. apply (Hall 1%nat); [fold n; lia | exact HP1]. }
  fold n in Hr, Hall. set (rho := last_active u) in *. fold theta in HP.
  assert (Hrho : 0 < INR rho) by (apply lt_0_INR; lia).
  assert (Hc : prefix_sum u rho - INR rho * theta = 1).
  { unfold theta, threshold_at. field. lra. }
  assert (Habove : forall i, (i < rho)%nat -> theta < nth i u 0).
  { intros i Hi. eapply Rlt_le_trans; [exact HP|].
    apply descending_nth; [exact Hd | lia | fold n; lia]. }
  assert (Hbelow : forall i, (rho <= i < n)%nat -> nth i u 0 <= theta).
  { intros i Hi.
    assert (Hnext : nth rho u 0 <= theta).
    { assert (Hnp : ~ threshold_at u (S rho) < nth (S rho - 1) u 0)
        by (apply Hall; lia).
      apply Rnot_lt_le in Hnp. replace (S rho - 1)%nat with rho in Hnp by lia.
      unfold threshold_at in Hnp. rewrite prefix_sum_S in Hnp by (fold n; lia).
      rewrite S_INR in Hnp.
      assert (H1 : nth rho u 0 * (INR rho + 1)
                   <= prefix_sum u rho + nth rho u 0 - 1).
      { apply (Rmult_le_compat_r (INR rho + 1)) in Hnp; [|lra].
        replace ((prefix_sum u rho + nth rho u 0 - 1) / (INR rho + 1)
                 * (INR rho + 1))
          with (prefix_sum u rho + nth rho u 0 - 1) in Hnp by (field; lra).
        exact Hnp. }
      assert (H2 : INR rho * nth rho u 0 <= INR rho * theta) by lra.
      apply (Rmult_le_reg_l (INR rho)); assumption. }
    eapply Rle_trans; [|exact Hnext].
    apply descending_nth; [exact Hd | lia | fold n; lia]. }
  assert (Hone : rsum (fun i => Rmax (nth i u 0 - theta) 0) n = 1).
  { assert (Hpre : rsum (fun i => Rmax (nth i u 0 - theta) 0) rho = 1).
    { rewrite (rsum_ext _ (fun i => 1 * nth i u 0 + (- theta) * 1)).
      - rewrite rsum_lin, <- prefix_sum_rsum by (fold n; lia).
        assert (Hones : rsum (fun _ => 1) rho = INR rho).
        { clear. induction rho as [|k IH]; [reflexivity|].
          rewrite rsum_S, IH, S_INR. ring. }
        rewrite Hones. lra.
      - intros i Hi. specialize (Habove i Hi).
        rewrite Rmax_left by lra. ring. }
    assert (Hext : forall m, (rho <= m <= n)%nat ->
              rsum (fun i => Rmax (nth i u 0 - theta) 0) m = 1).
    { intros m. induction m as [|m IH]; intros Hm.
      - assert (rho = 0%nat) by lia. lia.
      - destruct (Nat.eq_dec rho (S m)) as [He|Hne].
        + rewrite <- He. exact Hpre.
        + rewrite rsum_S, IH by lia.
          rewrite Rmax_right; [ring|].
          assert (nth m u 0 <= theta) by (apply Hbelow; lia). lra. }
    apply Hext. lia. }
  split; [|exact Hone].
  destruct (Rlt_dec 0 theta) as [|Hneg]; [assumption|]. exfalso.
  apply Rnot_lt_le in Hneg.
  assert (Hge : rsum (fun i => nth i u 0) n
                <= rsum (fun i => Rmax (nth i u 0 - theta) 0) n).
  { apply rsum_le. intros i Hi.
    eapply Rle_trans; [|apply Rmax_l]. lra. }
  rewrite Hone in Hge. rewrite <- prefix_sum_rsum in Hge by (fold n; lia).
  unfold prefix_sum, n in Hge. rewrite firstn_all in Hge. lra.
Qed.

(** *** Clipping with the threshold is the projection *)

Lemma clip_pointwise (theta z y : R) :
  0 <= theta ->
  2 * theta * (Rabs (sign z * Rmax (Rabs z - theta) 0) - Rabs y)
  <= (z - y) * (z - y)
     - (z - sign z * Rmax (Rabs z - theta) 0)
       * (z - sign z * Rmax (Rabs z - theta) 0).
Proof.
  intros Ht.
  pose proof (Rle_0_sqr (z - theta - y)) as S1.
  pose proof (Rle_0_sqr (z - theta + y)) as S2.
  pose proof (Rle_0_sqr (z + theta - y)) as S3.
  pose proof (Rle_0_sqr (z + theta + y)) as S4.
  pose proof (Rle_0_sqr y) as S5. unfold Rsqr in *.
  unfold sign, Rmax.
  destruct (Rlt_dec 0 z), (Rlt_dec z 0); try lra;
    unfold Rabs; destruct (Rcase_abs z), (Rcase_abs y); try lra;
    repeat match goal with
           | |- context [Rle_dec ?a ?b] => destruct (Rle_dec a b)
           | |- context [Rcase_abs ?a] => destruct (Rcase_abs a)
           end; nra.
Qed.

Lemma clip_nearest (theta : R) (z y : list R) :
  0 <= theta -> length y = length z ->
  2 * theta
  * (norm1 (map (fun e => sign e * Rmax (Rabs e - theta) 0) z) - norm1 y)
  <= dist2 z y
     - dist2 z (map (fun e => sign e * Rmax (Rabs e - theta) 0) z).
Proof.
  intros Ht. revert y.
  induction z as [|a z IH]; intros [|b y] Hlen; simpl in Hlen;
    try discriminate.
  - unfold norm1, dist2; simpl. lra.
  - injection Hlen as Hlen. specialize (IH y Hlen).
    pose proof (clip_pointwise theta a b Ht).
    unfold norm1, dist2, sumsq in *; simpl in *. lra.
Qed.

Lemma norm1_sum_abs (l : list R) :
  norm1 l = fold_right Rplus 0 (map Rabs l).
Proof.
  induction l as [|a l IH]; unfold norm1 in *; simpl; [reflexivity|].
  now rewrite IH.
Qed.

Lemma norm1_clip (theta : R) (z : list R) :
  0 <= theta ->
  norm1 (map (fun e => sign e * Rmax (Rabs e - theta) 0) z)
  = fold_right Rplus 0 (map (fun x => Rmax (x - theta) 0) (map Rabs z)).
Proof.
  intros Ht. rewrite norm1_sum_abs, !map_map. f_equal.
  apply map_ext. intros e. unfold sign, Rmax.
  destruct (Rlt_dec 0 e), (Rlt_dec e 0); try lra;
    unfold Rabs; destruct (Rcase_abs e); try lra;
    repeat match goal with
           | |- context [Rle_dec ?a ?b] => destruct (Rle_dec a b)
           | |- context [Rcase_abs ?a] => destruct (Rcase_abs a)
           end; nra.
Qed.

(** The modelled routine returns the Euclidean projection onto the unit
    ball of the 1-norm, for every coordinate list. *)
Lemma proj_l1_list_projects (z : list R) :
  is_proj_l1_ball z (proj_l1_list z).
Proof.
  unfold proj_l1_list. destruct (Rle_dec (norm1 z) 1) as [Hin|Hout].
  - split; [reflexivity|]. split; [exact Hin|].
    intros y _ _. replace (dist2 z z) with 0.
    + apply sumsq_nonneg.
    + clear. induction z as [|a z IH]; unfold dist2 in *; simpl;
        [reflexivity|]. rewrite <- IH. ring.
  - apply Rnot_le_lt in Hout.
    set (u := sort_desc (map Rabs z)).
    assert (Hsum : fold_right Rplus 0 u = norm1 z).
    { rewrite norm1_sum_abs. unfold u.
      rewrite <- (map_id (sort_desc (map Rabs z))).
      rewrite (sum_sort_desc (fun x => x)). now rewrite map_id. }
    destruct (threshold_sorted u) as [Hth Hone].
    { apply descending_sort. }
    { rewrite Hsum. exact Hout. }
    { intros x Hx. apply in_sort_desc, in_map_iff in Hx.
      destruct Hx as (e & <- & _). apply Rabs_pos. }
    change (threshold_at u (last_active u)) with (l1_threshold z)
      in Hth, Hone.
    set (theta := l1_threshold z) in *.
    assert (Hnorm : norm1 (map (fun e => sign e * Rmax (Rabs e - theta) 0) z)
                    = 1).
    { rewrite norm1_clip by lra.
      rewrite <- (sum_sort_desc (fun x => Rmax (x - theta) 0)).
      fold u. rewrite sum_map_rsum. exact Hone. }
    split; [apply length_map|]. split; [lra|].
    intros y Hy Hball.
    pose proof (clip_nearest theta z y ltac:(lra) Hy) as H.
    rewrite Hnorm in H. nra.
Qed.

Lemma proj_l1_model_contract : proj_l1_contract proj_l1_model.
Proof.
  intros z. exists (mk_array (shape z) (proj_l1_list (data z))).
  split; [reflexivity|]. split; [reflexivity|].
  apply proj_l1_list_projects.
Qed.

(** The routine on the point [(3, 1)]. *)
Lemma proj_l1_example : proj_l1_list [3; 1] = [1; 0].
Proof.
  assert (H3 : Rabs 3 = 3) by (apply Rabs_pos_eq; lra).
  assert (H1 : Rabs 1 = 1) by (apply Rabs_pos_eq; lra).
  assert (Hu : sort_desc (map Rabs [3; 1]) = [3; 1]).
  { simpl. rewrite H3, H1. destruct (Rle_dec 1 3); [reflexivity | lra]. }
  assert (Hth : l1_threshold [3; 1] = 2).
  { unfold l1_threshold. rewrite Hu.
    unfold last_active, threshold_at, prefix_sum. simpl.
    destruct (Rlt_dec ((3 + 0 - 1) / 1) 3); [|lra].
    destruct (Rlt_dec ((3 + (1 + 0) - 1) / (1 + 1)) 1); [lra|].
    simpl. lra. }
  unfold proj_l1_list.
  destruct (Rle_dec (norm1 [3; 1]) 1) as [H|_].
  { unfold norm1 in H; simpl in H. rewrite H3, H1 in H. lra. }
  simpl. rewrite Hth, H3, H1. unfold sign, Rmax.
  destruct (Rlt_dec 0 3), (Rlt_dec 0 1), (Rle_dec (3 - 2) 0),
    (Rle_dec (1 - 2) 0); try lra.
  f_equal; [lra | f_equal; lra].
Qed.

(** *** The infinity norm operator with a projection routine *)

(** C3. For every real array [v] and every step [t > 0]: if [proj_l1]
    returns for every array its Euclidean projection onto the unit ball
    of the 1-norm, the infinity norm base operator returns
    [v - t * p], coordinate by coordinate, where [p] is the projection
    of [v / t]; this value is the proximal point of [t * norm_inf] at
    [v]. *)
Theorem prox_norm_inf_base_dual_projection
    (proj_l1 : container -> result container) (a : ndarray) (t : R) :
  0 < t -> proj_l1_contract proj_l1 ->
  exists p,
    is_proj_l1_ball (map (fun e => e / t) (data a)) p /\
    prox_norm_inf_base proj_l1 (Dense a) t
    = Ok (Dense (mk_array (shape a)
                   (zip_with (fun x y => x - t * y) (data a) p))) /\
    is_prox_norm_inf t (data a)
      (zip_with (fun x y => x - t * y) (data a) p).
Proof.
  intros Ht Hc.
  destruct (Hc (map_array (fun e => e / t) a)) as (p & Hp & Hs & Hproj).
  cbn [map_array shape data] in Hs, Hproj.
  exists (data p). split; [exact Hproj|]. split.
  - unfold prox_norm_inf_base.
    change (div_scalar (Dense a) t)
      with (Dense (map_array (fun e => e / t) a)).
    rewrite Hp. cbn [bind].
    unfold sub, c_shape, c_data. cbn [scalar_mul map_container array_of
      map_array shape data issparse andb].
    rewrite Hs, shape_eqb_refl. now rewrite zip_with_map_r.
  - now apply moreau_norm_inf.
Qed.

Lemma prox_norm_inf_base_model_example :
  prox_norm_inf_base proj_l1_model (Dense (mk_array [2%nat] [6; 2])) 2
  = Ok (Dense (mk_array [2%nat] [4; 2])).
Proof.
  unfold prox_norm_inf_base, proj_l1_model, c_shape, c_data.
  cbn [div_scalar map_container map_array array_of shape data map bind].
  replace (6 / 2) with 3 by lra. replace (2 / 2) with 1 by lra.
  rewrite proj_l1_example.
  unfold sub, c_shape, c_data. cbn [scalar_mul map_container array_of
    map_array shape data issparse andb map zip_with].
  rewrite shape_eqb_refl. repeat f_equal; lra.
Qed.

Lemma prox_norm_inf_base_dual_projection_witness :
  prox_norm_inf_base proj_l1_model (Dense (mk_array [2%nat] [6; 2])) 2
  = Ok (Dense (mk_array [2%nat] [4; 2])) /\
  is_prox_norm_inf 2 [6; 2] [4; 2].
Proof.
  destruct (prox_norm_inf_base_dual_projection proj_l1_model
              (mk_array [2%nat] [6; 2]) 2) as (p & _ & Hval & Hprox).
  - lra.
  - exact proj_l1_model_contract.
  - rewrite prox_norm_inf_base_model_example in Hval.
    assert (Hz : zip_with (fun x y => x - 2 * y) [6; 2] p = [4; 2])
      by (injection Hval as Hz; symmetry; exact Hz).
    cbn [data] in Hprox. rewrite Hz in Hprox.
    split; [apply prox_norm_inf_base_model_example | exact Hprox].
Defined.

(** *** Runs of the operator with the modelled routine *)

Lemma prox_norm_inf_base_small_input_witness :
  prox_norm_inf_base proj_l1_model (Dense (mk_array [1%nat] [1 / 2])) 1
  = Ok (np_zeros [1%nat]).
Proof.
  apply (prox_norm_inf_base_small_input proj_l1_model
           (mk_array [1%nat] [1 / 2])
           (mk_array [1%nat] (proj_l1_list (map (fun e => e / 1) [1 / 2])))
           1).
  - lra.
  - reflexivity.
  - reflexivity.
  - reflexivity.
  - apply proj_l1_list_projects.
  - unfold norm1; simpl. rewrite Rabs_pos_eq; lra.
Defined.

Lemma prox_norm_inf_base_moves_example :
  prox_norm_inf_base proj_l1_model (Dense (mk_array [2%nat] [3; 1])) 1
  = Ok (Dense (mk_array [2%nat] [2; 1])).
Proof.
  unfold prox_norm_inf_base, proj_l1_model, c_shape, c_data.
  cbn [div_scalar map_container map_array array_of shape data map bind].
  replace (3 / 1) with 3 by lra. replace (1 / 1) with 1 by lra.
  rewrite proj_l1_example.
  unfold sub, c_shape, c_data. cbn [scalar_mul map_container array_of
    map_array shape data issparse andb map zip_with].
  rewrite shape_eqb_refl. repeat f_equal; lra.
Qed.

Lemma prox_norm_inf_base_moves_at_most_t_witness :
  prox_norm_inf_base proj_l1_model (Dense (mk_array [2%nat] [3; 1])) 1
  = Ok (Dense (mk_array [2%nat] [2; 1])) /\
  norm1 (zip_with Rminus [3; 1] [2; 1]) <= 1.
Proof.
  destruct (prox_norm_inf_base_moves_at_most_t proj_l1_model
              (mk_array [2%nat] [3; 1])
              (mk_array [2%nat] (proj_l1_list (map (fun e => e / 1) [3; 1])))
              1) as (r & Hr & _ & Hn).
  - lra.
  - reflexivity.
  - reflexivity.
  - apply proj_l1_list_projects.
  - rewrite prox_norm_inf_base_moves_example in Hr.
    injection Hr as Hr. subst r.
    split; [apply prox_norm_inf_base_moves_example | exact Hn].
Defined.
